(** * Silent-disco playlist: request queue, guards and guest/admin pages

    The repository ships the React front end (GuestPage.js, App.js, the
    admin page, the api endpoint table).  The pages are embedded below as
    state machines over an explicit browser world (clock, timers, request
    log).  The server-side queue engine that the pages talk to is not part
    of the shipped sources; it is modelled from the specification in
    [Module Engine]. *)

From stdpp Require Import gmap strings list sorting pretty.
From Stdlib Require Import ZArith Ascii.

Local Open Scope Z_scope.

#[local] Set Warnings "-clear-no-such-hyp".

(** ** Shared data *)

(** A catalog track as the pages pass it around ([track.uri],
    [track.name], [track.artist], [track.album_art]). *)
Record TrackRef := mkTrack {
  uri : string;
  name : string;
  artist : string;
  album_art : option string
}.

(** Requests the pages send with axios: the path and, for a POST, the
    JSON body (none, [{query}], or the four track fields). *)
Inductive Request :=
| Get (path : string)
| Post (path : string)
| PostQuery (path : string) (query : string)
| PostTrack (path : string) (track_uri track_name track_artist : string)
            (track_album_art : option string).

(** How an awaited request settles: resolved with the response data, or
    rejected, possibly with [e.response.data.detail]. *)
Inductive Outcome (A : Type) :=
| Resolved (data : A)
| Failed (detail : option string).
Arguments Resolved {A} data.
Arguments Failed {A} detail.

(** JavaScript truthiness of an optional string. *)
Definition truthy (s : option string) : bool :=
  match s with
  | Some x => negb (String.eqb x "")
  | None => false
  end.

(** [a || d] on an optional string. *)
Definition or_default (a : option string) (d : string) : string :=
  match a with
  | Some x => if String.eqb x "" then d else x
  | None => d
  end.

(** * The server-side engine *)

Module Engine.

(** Modelled from the spec: QueueEntry (data model); the engine itself,
    which the pages reach through /spotify/add-track, /spotify/skip-paid,
    /spotify/move-to-next and /admin/reset-queue-state, is what is
    missing from the sources. *)
Record QueueEntry := mkEntry {
  track : TrackRef;
  is_guest_request : bool;
  is_priority : bool;
  submitted_at : Z;
  submitted_by : option string
}.

(** Modelled from the spec: the externally supplied configuration the
    engine consumes, cooldown window and in-flight guard duration. *)
Record Config := mkConfig {
  cooldown_window : Z;
  guard_window : Z
}.

(** Modelled from the spec: the error taxonomy of the engine. *)
Inductive Error :=
| DuplicateInFlight
| InCooldown
| UpstreamRejected
| UpstreamTimeout
| NotFound
| Unauthenticated.

(** Modelled from the spec: what the UpstreamClient answers to the
    write-through call (acknowledged, rejected, timed out). *)
Inductive Upstream := Ack | Reject | Timeout.

(** Modelled from the spec: the engine state (ordered queue, in-flight
    guard, cooldown records).  The guard holds, per uri, the time the
    uri was inserted; an entry is live for [guard_window] after that. *)
Record State := mkState {
  entries : list QueueEntry;
  in_flight : gmap string Z;
  cooldowns : gmap string Z
}.

(** Modelled from the spec: the engine before any request. *)
Definition init : State :=
  {| entries := []; in_flight := ∅; cooldowns := ∅ |}.

Section WithConfig.
Variable cfg : Config.

(** Modelled from the spec: CooldownTracker.on_track_change, an upsert
    of the CooldownRecord of [u]. *)
Definition on_track_change (st : State) (u : string) (at_ : Z) : State :=
  {| entries := entries st;
     in_flight := in_flight st;
     cooldowns := <[u := at_]> (cooldowns st) |}.

(** Modelled from the spec: CooldownTracker.remaining,
    [max(0, cooldown_window - (now - last_played_at))], zero without a
    record. *)
Definition remaining (st : State) (u : string) (now : Z) : Z :=
  match cooldowns st !! u with
  | Some last_played_at =>
      Z.max 0 (cooldown_window cfg - (now - last_played_at))
  | None => 0
  end.

(** Modelled from the spec: CooldownTracker.is_in_cooldown,
    [remaining(...) > 0]. *)
Definition is_in_cooldown (st : State) (u : string) (now : Z) : bool :=
  bool_decide (0 < remaining st u now).

(** Modelled from the spec: membership in the InFlightGuard; entries
    expire a fixed window after insertion. *)
Definition in_guard (st : State) (u : string) (now : Z) : bool :=
  match in_flight st !! u with
  | Some since => bool_decide (now - since < guard_window cfg)
  | None => false
  end.

(** Modelled from the spec: RequestQueueEngine.list, the ordered
    sequence of tracked entries. *)
Definition list_ (st : State) : list QueueEntry := entries st.

(** Modelled from the spec: where add_priority puts its entry, after the
    earlier priority entries and before all free entries. *)
Fixpoint insert_priority (e : QueueEntry) (l : list QueueEntry)
  : list QueueEntry :=
  match l with
  | [] => [e]
  | x :: l' =>
      if is_priority x then x :: insert_priority e l' else e :: x :: l'
  end.

(** Modelled from the spec: the position add_priority returns, the
    1-based index at which [insert_priority] puts its argument. *)
Fixpoint priority_position (l : list QueueEntry) : nat :=
  match l with
  | [] => 1
  | x :: l' => if is_priority x then S (priority_position l') else 1
  end.

(** Modelled from the spec: the QueueEntry an accepted request
    creates. *)
Definition new_entry (t : TrackRef) (submitter : option string)
    (prio : bool) (now : Z) : QueueEntry :=
  {| track := t; is_guest_request := true; is_priority := prio;
     submitted_at := now; submitted_by := submitter |}.

Definition with_guard (st : State) (g : gmap string Z) : State :=
  {| entries := entries st; in_flight := g; cooldowns := cooldowns st |}.

Definition with_entries (st : State) (l : list QueueEntry) : State :=
  {| entries := l; in_flight := in_flight st; cooldowns := cooldowns st |}.

(** Modelled from the spec: RequestQueueEngine.add_free.  Guard check,
    then cooldown check, then guard insertion and the write-through;
    on acknowledgement the entry is appended and its 1-based position
    returned, on upstream failure the guard entry is rolled back. *)
Definition add_free (st : State) (t : TrackRef) (submitter : option string)
    (now : Z) (up : Upstream) : State * (Error + nat) :=
  if in_guard st (uri t) now then (st, inl DuplicateInFlight)
  else if is_in_cooldown st (uri t) now then (st, inl InCooldown)
  else
    let guarded := <[uri t := now]> (in_flight st) in
    match up with
    | Ack =>
        let l := entries st ++ [new_entry t submitter false now] in
        ({| entries := l; in_flight := guarded; cooldowns := cooldowns st |},
         inr (length l))
    | Reject => (with_guard st (delete (uri t) guarded), inl UpstreamRejected)
    | Timeout => (with_guard st (delete (uri t) guarded), inl UpstreamTimeout)
    end.

(** Modelled from the spec: RequestQueueEngine.add_free read with its
    two admission tests in the other order, cooldown before guard.  The
    description of add_free names both tests without ranking them; the
    two readings differ only for a uri that is guarded and cooling at
    once. *)
Definition add_free_cooldown_first (st : State) (t : TrackRef)
    (submitter : option string) (now : Z) (up : Upstream)
  : State * (Error + nat) :=
  if is_in_cooldown st (uri t) now then (st, inl InCooldown)
  else if in_guard st (uri t) now then (st, inl DuplicateInFlight)
  else
    let guarded := <[uri t := now]> (in_flight st) in
    match up with
    | Ack =>
        let l := entries st ++ [new_entry t submitter false now] in
        ({| entries := l; in_flight := guarded; cooldowns := cooldowns st |},
         inr (length l))
    | Reject => (with_guard st (delete (uri t) guarded), inl UpstreamRejected)
    | Timeout => (with_guard st (delete (uri t) guarded), inl UpstreamTimeout)
    end.

(** Modelled from the spec: RequestQueueEngine.add_priority, the same
    checks, the entry inserted at the end of the priority partition. *)
Definition add_priority (st : State) (t : TrackRef)
    (submitter : option string) (now : Z) (up : Upstream)
  : State * (Error + nat) :=
  if in_guard st (uri t) now then (st, inl DuplicateInFlight)
  else if is_in_cooldown st (uri t) now then (st, inl InCooldown)
  else
    let guarded := <[uri t := now]> (in_flight st) in
    match up with
    | Ack =>
        let l := insert_priority (new_entry t submitter true now) (entries st) in
        ({| entries := l; in_flight := guarded; cooldowns := cooldowns st |},
         inr (priority_position (entries st)))
    | Reject => (with_guard st (delete (uri t) guarded), inl UpstreamRejected)
    | Timeout => (with_guard st (delete (uri t) guarded), inl UpstreamTimeout)
    end.

(** Modelled from the spec: the tracked entry promote_existing acts on,
    the first one with uri [u], taken out of the list. *)
Fixpoint extract (u : string) (l : list QueueEntry)
  : option (QueueEntry * list QueueEntry) :=
  match l with
  | [] => None
  | x :: l' =>
      if bool_decide (uri (track x) = u) then Some (x, l')
      else match extract u l' with
           | Some (y, r) => Some (y, x :: r)
           | None => None
           end
  end.

(** Modelled from the spec: the entry reclassified as priority. *)
Definition promoted (e : QueueEntry) : QueueEntry :=
  {| track := track e; is_guest_request := is_guest_request e;
     is_priority := true; submitted_at := submitted_at e;
     submitted_by := submitted_by e |}.

(** Modelled from the spec: RequestQueueEngine.promote_existing, the
    tracked entry is reclassified as priority and relocated to index 0;
    NotFound when the uri is not tracked. *)
Definition promote_existing (st : State) (u : string)
  : State * (Error + bool) :=
  match extract u (entries st) with
  | Some (e, rest) => (with_entries st (promoted e :: rest), inr true)
  | None => (st, inl NotFound)
  end.

(** Modelled from the spec: RequestQueueEngine.reconcile, dropping the
    entries whose track is now playing or has left the upstream
    queue. *)
Definition reconcile (st : State) (playing : option string)
    (upstream_queue : list string) : State :=
  with_entries st
    (List.filter
       (fun e => negb (bool_decide (playing = Some (uri (track e))))
                 && bool_decide (uri (track e) ∈ upstream_queue))
       (entries st)).

(** Modelled from the spec: RequestQueueEngine.reset, clearing the
    tracked entries and the in-flight guard and nothing else. *)
Definition reset (st : State) : State :=
  {| entries := []; in_flight := ∅; cooldowns := cooldowns st |}.

(** ** Traces of engine calls *)

(** One add call: free or paid, with the time of the call and what the
    upstream service answers to the write-through. *)
Record Submission := mkSubmission {
  paid : bool;
  what : TrackRef;
  who : option string;
  at_time : Z;
  outcome : Upstream
}.

Definition submit (st : State) (s : Submission) : State * (Error + nat) :=
  if paid s
  then add_priority st (what s) (who s) (at_time s) (outcome s)
  else add_free st (what s) (who s) (at_time s) (outcome s).

(** The entry a successful submission creates. *)
Definition entry_of (s : Submission) : QueueEntry :=
  new_entry (what s) (who s) (paid s) (at_time s).

Fixpoint run_submissions (st : State) (l : list Submission) : State :=
  match l with
  | [] => st
  | s :: rest => run_submissions (submit st s).1 rest
  end.

(** The entries created along a trace of submissions, in submission
    order. *)
Fixpoint accepted (st : State) (l : list Submission) : list QueueEntry :=
  match l with
  | [] => []
  | s :: rest =>
      match (submit st s).2 with
      | inr _ => entry_of s :: accepted (submit st s).1 rest
      | inl _ => accepted (submit st s).1 rest
      end
  end.

Inductive Op :=
| Submit (s : Submission)
| Promote (u : string)
| TrackChange (u : string) (at_ : Z)
| Reconcile (playing : option string) (upstream_queue : list string)
| Reset.

Definition apply (st : State) (o : Op) : State :=
  match o with
  | Submit s => (submit st s).1
  | Promote u => (promote_existing st u).1
  | TrackChange u at_ => on_track_change st u at_
  | Reconcile playing upstream_queue => reconcile st playing upstream_queue
  | Reset => reset st
  end.

Definition run (st : State) (ops : list Op) : State := foldl apply st ops.

(** No free entry comes before a priority entry. *)
Definition priority_first (x y : QueueEntry) : Prop :=
  is_priority y = true -> is_priority x = true.

Definition partitioned (l : list QueueEntry) : Prop :=
  StronglySorted priority_first l.

End WithConfig.

End Engine.

(** * The guest page (frontend/src/pages/GuestPage.js) *)

Module GuestPage.

(** lib/api: the endpoint table. *)
Module endpoints.
Definition checkAuth : string := "/spotify/status".
Definition getPlaylistInfo : string := "/spotify/playlist-info".
Definition getNowPlaying : string := "/spotify/now-playing".
Definition getQueue : string := "/spotify/queue".
Definition search : string := "/spotify/search".
Definition addTrack : string := "/spotify/add-track".
Definition auth : string := "/spotify/auth".
End endpoints.

Record PlaylistInfo := mkPlaylistInfo {
  pl_name : string;
  pl_color : string
}.

(** The body of a now-playing response as the page reads it. *)
Record NowPlaying := mkNowPlaying {
  is_playing : bool;
  song_name : option string;
  np_artist : option string;
  np_album_art : option string;
  progress_ms : Z;
  duration_ms : Z;
  time_left_ms : Z
}.

(** A search result: a track annotated by the server. *)
Record SearchTrack := mkSearchTrack {
  s_track : TrackRef;
  in_cooldown : bool;
  recently_added : bool;
  cooldown_minutes : Z
}.

Record QueueItem := mkQueueItem {
  q_track : TrackRef;
  is_guest_request : bool
}.

Record SuccessData := mkSuccessData {
  trackName : string;
  sd_artist : string;
  position : Z
}.

(** A promise the page is awaiting, with what its continuation captured. *)
Inductive Awaited :=
| AwStatus
| AwPlaylistInfo
| AwNowPlaying
| AwQueue
| AwSearch
| AwAddTrack (t : TrackRef).

(** Callbacks registered with [setTimeout] and [setInterval]. *)
Inductive TimerCb :=
| DeleteAdding (u : string)
| DebouncedSearch (q : string).

Inductive IntervalCb := FetchNowPlaying | FetchQueue.

#[global] Instance IntervalCb_eq_dec : EqDecision IntervalCb.
Proof. solve_decision. Defined.

(** The component state ([useState], [useRef]) together with the browser
    world the component acts on. *)
Record Page := mkPage {
  playlistInfo : PlaylistInfo;
  nowPlaying : option NowPlaying;
  queue : list QueueItem;
  searchQuery : string;
  searchResults : list SearchTrack;
  isAuthenticated : bool;
  addingTrack : option string;
  successData : option SuccessData;
  addingRef : gset string;
  clock : Z;
  timers : list (Z * TimerCb);
  intervals : list (IntervalCb * Z);
  requests : list Request;
  awaiting : list Awaited;
  toasts : list string;
  console : list string
}.

Definition initial : Page :=
  {| playlistInfo := {| pl_name := "Silent Disco"; pl_color := "#ffffff" |};
     nowPlaying := None; queue := []; searchQuery := "";
     searchResults := []; isAuthenticated := false; addingTrack := None;
     successData := None; addingRef := ∅; clock := 0; timers := [];
     intervals := []; requests := []; awaiting := []; toasts := [];
     console := [] |}.

(** Field updates.  [put_searchQuery] and [put_isAuthenticated] only store
    the value; the React setters, which also re-run the dependent effects,
    are [setSearchQuery] and [setIsAuthenticated] below. *)
Definition set_playlistInfo (v : PlaylistInfo) (p : Page) : Page :=
  mkPage v (nowPlaying p) (queue p) (searchQuery p) (searchResults p)
    (isAuthenticated p) (addingTrack p) (successData p) (addingRef p)
    (clock p) (timers p) (intervals p) (requests p) (awaiting p) (toasts p)
    (console p).
Definition set_nowPlaying (v : option NowPlaying) (p : Page) : Page :=
  mkPage (playlistInfo p) v (queue p) (searchQuery p) (searchResults p)
    (isAuthenticated p) (addingTrack p) (successData p) (addingRef p)
    (clock p) (timers p) (intervals p) (requests p) (awaiting p) (toasts p)
    (console p).
Definition set_queue (v : list QueueItem) (p : Page) : Page :=
  mkPage (playlistInfo p) (nowPlaying p) v (searchQuery p) (searchResults p)
    (isAuthenticated p) (addingTrack p) (successData p) (addingRef p)
    (clock p) (timers p) (intervals p) (requests p) (awaiting p) (toasts p)
    (console p).
Definition put_searchQuery (v : string) (p : Page) : Page :=
  mkPage (playlistInfo p) (nowPlaying p) (queue p) v (searchResults p)
    (isAuthenticated p) (addingTrack p) (successData p) (addingRef p)
    (clock p) (timers p) (intervals p) (requests p) (awaiting p) (toasts p)
    (console p).
Definition set_searchResults (v : list SearchTrack) (p : Page) : Page :=
  mkPage (playlistInfo p) (nowPlaying p) (queue p) (searchQuery p) v
    (isAuthenticated p) (addingTrack p) (successData p) (addingRef p)
    (clock p) (timers p) (intervals p) (requests p) (awaiting p) (toasts p)
    (console p).
Definition put_isAuthenticated (v : bool) (p : Page) : Page :=
  mkPage (playlistInfo p) (nowPlaying p) (queue p) (searchQuery p)
    (searchResults p) v (addingTrack p) (successData p) (addingRef p)
    (clock p) (timers p) (intervals p) (requests p) (awaiting p) (toasts p)
    (console p).
Definition set_addingTrack (v : option string) (p : Page) : Page :=
  mkPage (playlistInfo p) (nowPlaying p) (queue p) (searchQuery p)
    (searchResults p) (isAuthenticated p) v (successData p) (addingRef p)
    (clock p) (timers p) (intervals p) (requests p) (awaiting p) (toasts p)
    (console p).
Definition set_successData (v : option SuccessData) (p : Page) : Page :=
  mkPage (playlistInfo p) (nowPlaying p) (queue p) (searchQuery p)
    (searchResults p) (isAuthenticated p) (addingTrack p) v (addingRef p)
    (clock p) (timers p) (intervals p) (requests p) (awaiting p) (toasts p)
    (console p).
Definition set_addingRef (v : gset string) (p : Page) : Page :=
  mkPage (playlistInfo p) (nowPlaying p) (queue p) (searchQuery p)
    (searchResults p) (isAuthenticated p) (addingTrack p) (successData p) v
    (clock p) (timers p) (intervals p) (requests p) (awaiting p) (toasts p)
    (console p).
Definition set_clock (v : Z) (p : Page) : Page :=
  mkPage (playlistInfo p) (nowPlaying p) (queue p) (searchQuery p)
    (searchResults p) (isAuthenticated p) (addingTrack p) (successData p)
    (addingRef p) v (timers p) (intervals p) (requests p) (awaiting p)
    (toasts p) (console p).
Definition set_timers (v : list (Z * TimerCb)) (p : Page) : Page :=
  mkPage (playlistInfo p) (nowPlaying p) (queue p) (searchQuery p)
    (searchResults p) (isAuthenticated p) (addingTrack p) (successData p)
    (addingRef p) (clock p) v (intervals p) (requests p) (awaiting p)
    (toasts p) (console p).
Definition set_intervals (v : list (IntervalCb * Z)) (p : Page) : Page :=
  mkPage (playlistInfo p) (nowPlaying p) (queue p) (searchQuery p)
    (searchResults p) (isAuthenticated p) (addingTrack p) (successData p)
    (addingRef p) (clock p) (timers p) v (requests p) (awaiting p) (toasts p)
    (console p).
Definition set_requests (v : list Request) (p : Page) : Page :=
  mkPage (playlistInfo p) (nowPlaying p) (queue p) (searchQuery p)
    (searchResults p) (isAuthenticated p) (addingTrack p) (successData p)
    (addingRef p) (clock p) (timers p) (intervals p) v (awaiting p) (toasts p)
    (console p).
Definition set_awaiting (v : list Awaited) (p : Page) : Page :=
  mkPage (playlistInfo p) (nowPlaying p) (queue p) (searchQuery p)
    (searchResults p) (isAuthenticated p) (addingTrack p) (successData p)
    (addingRef p) (clock p) (timers p) (intervals p) (requests p) v (toasts p)
    (console p).
Definition set_toasts (v : list string) (p : Page) : Page :=
  mkPage (playlistInfo p) (nowPlaying p) (queue p) (searchQuery p)
    (searchResults p) (isAuthenticated p) (addingTrack p) (successData p)
    (addingRef p) (clock p) (timers p) (intervals p) (requests p) (awaiting p)
    v (console p).
Definition set_console (v : list string) (p : Page) : Page :=
  mkPage (playlistInfo p) (nowPlaying p) (queue p) (searchQuery p)
    (searchResults p) (isAuthenticated p) (addingTrack p) (successData p)
    (addingRef p) (clock p) (timers p) (intervals p) (requests p) (awaiting p)
    (toasts p) v.

(** ** Browser primitives *)

(** [api.get] / [api.post]: the request goes out and its promise is
    awaited. *)
Definition send (r : Request) (k : Awaited) (p : Page) : Page :=
  set_awaiting (awaiting p ++ [k]) (set_requests (requests p ++ [r]) p).

Definition setTimeout (cb : TimerCb) (ms : Z) (p : Page) : Page :=
  set_timers (timers p ++ [(clock p + ms, cb)]) p.

Definition setInterval (cb : IntervalCb) (ms : Z) (p : Page) : Page :=
  set_intervals (intervals p ++ [(cb, ms)]) p.

Definition is_polling (cb : IntervalCb) : bool :=
  match cb with FetchNowPlaying | FetchQueue => true end.

Definition is_debounce (cb : TimerCb) : bool :=
  match cb with DebouncedSearch _ => true | DeleteAdding _ => false end.

Definition console_error (msg : string) (p : Page) : Page :=
  set_console (console p ++ [msg]) p.

Definition toast_error (msg : string) (p : Page) : Page :=
  set_toasts (toasts p ++ [msg]) p.

(** Strings are held as UTF-8 bytes.  [String.prototype.trim] strips the
    ECMAScript white space and line terminators: U+0009..U+000D, U+0020,
    U+00A0, U+1680, U+2000..U+200A, U+2028, U+2029, U+202F, U+205F,
    U+3000 and U+FEFF.  The three functions below recognise their
    encodings of one, two and three bytes. *)
Definition is_space (c : Ascii.ascii) : bool :=
  let n := Ascii.nat_of_ascii c in
  (Nat.eqb n 32 || (Nat.leb 9 n && Nat.leb n 13))%bool.

(** U+00A0 is C2 A0. *)
Definition is_space2 (c1 c2 : Ascii.ascii) : bool :=
  (Nat.eqb (Ascii.nat_of_ascii c1) 194 &&
   Nat.eqb (Ascii.nat_of_ascii c2) 160)%bool.

(** U+1680 is E1 9A 80; U+2000..U+200A, U+2028, U+2029 and U+202F are
    E2 80 80..8A, E2 80 A8, E2 80 A9 and E2 80 AF; U+205F is E2 81 9F;
    U+3000 is E3 80 80; U+FEFF is EF BB BF. *)
Definition is_space3 (c1 c2 c3 : Ascii.ascii) : bool :=
  let n1 := Ascii.nat_of_ascii c1 in
  let n2 := Ascii.nat_of_ascii c2 in
  let n3 := Ascii.nat_of_ascii c3 in
  ((Nat.eqb n1 225 && Nat.eqb n2 154 && Nat.eqb n3 128)
   || (Nat.eqb n1 226 && Nat.eqb n2 128 &&
       ((Nat.leb 128 n3 && Nat.leb n3 138) || Nat.eqb n3 168
        || Nat.eqb n3 169 || Nat.eqb n3 175))
   || (Nat.eqb n1 226 && Nat.eqb n2 129 && Nat.eqb n3 159)
   || (Nat.eqb n1 227 && Nat.eqb n2 128 && Nat.eqb n3 128)
   || (Nat.eqb n1 239 && Nat.eqb n2 187 && Nat.eqb n3 191))%bool.

(** [!query.trim()]: nothing but white space. *)
Fixpoint is_blank (s : string) : bool :=
  match s with
  | EmptyString => true
  | String c1 s1 =>
      if is_space c1 then is_blank s1
      else
        match s1 with
        | EmptyString => false
        | String c2 s2 =>
            if is_space2 c1 c2 then is_blank s2
            else
              match s2 with
              | EmptyString => false
              | String c3 s3 =>
                  if is_space3 c1 c2 c3 then is_blank s3 else false
              end
        end
  end.

(** ** The effects of the component, in source order *)

Definition checkAuth (p : Page) : Page :=
  send (Get endpoints.checkAuth) AwStatus p.

Definition fetchPlaylistInfo (p : Page) : Page :=
  send (Get endpoints.getPlaylistInfo) AwPlaylistInfo p.

Definition fetchNowPlaying (p : Page) : Page :=
  send (Get endpoints.getNowPlaying) AwNowPlaying p.

Definition fetchQueue (p : Page) : Page :=
  send (Get endpoints.getQueue) AwQueue p.

(** [if (isAuthenticated) fetchPlaylistInfo();] *)
Definition playlistInfo_effect (p : Page) : Page :=
  if isAuthenticated p then fetchPlaylistInfo p else p.

(** [if (isAuthenticated) { fetchNowPlaying(); setInterval(fetchNowPlaying, 2000); ... }] *)
Definition nowPlaying_effect (p : Page) : Page :=
  if isAuthenticated p
  then setInterval FetchNowPlaying 2000 (fetchNowPlaying p)
  else p.

(** [if (isAuthenticated) { fetchQueue(); setInterval(fetchQueue, 3000); ... }] *)
Definition queue_effect (p : Page) : Page :=
  if isAuthenticated p
  then setInterval FetchQueue 3000 (fetchQueue p)
  else p.

(** The cleanups returned by the two polling effects ([clearInterval]);
    an effect that ran with [isAuthenticated] false returned none. *)
Definition polling_cleanup (p : Page) : Page :=
  if isAuthenticated p
  then set_intervals (List.filter (fun i => negb (is_polling i.1)) (intervals p)) p
  else p.

(** The setter of [isAuthenticated]: an unchanged value re-runs nothing;
    a changed one runs the cleanups and then the three effects that
    depend on it. *)
Definition setIsAuthenticated (v : bool) (p : Page) : Page :=
  if Bool.eqb v (isAuthenticated p) then p
  else queue_effect
         (nowPlaying_effect
            (playlistInfo_effect (put_isAuthenticated v (polling_cleanup p)))).

Definition handleSearch (q : string) (p : Page) : Page :=
  if is_blank q then set_searchResults [] p
  else send (PostQuery endpoints.search q) AwSearch p.

(** The debounce effect: a 300 ms timer closing over the current query;
    its cleanup is [clearTimeout]. *)
Definition debounce_effect (p : Page) : Page :=
  setTimeout (DebouncedSearch (searchQuery p)) 300 p.

Definition debounce_cleanup (p : Page) : Page :=
  set_timers (List.filter (fun x => negb (is_debounce x.2)) (timers p)) p.

Definition setSearchQuery (q : string) (p : Page) : Page :=
  if String.eqb q (searchQuery p) then p
  else debounce_effect (put_searchQuery q (debounce_cleanup p)).

(** The page right after its first render: every effect has run once. *)
Definition mounted : Page :=
  debounce_effect
    (queue_effect (nowPlaying_effect (playlistInfo_effect (checkAuth initial)))).

(** ** Continuations of the awaited requests *)

Definition checkAuth_settled (r : Outcome bool) (p : Page) : Page :=
  match r with
  | Resolved authenticated => setIsAuthenticated authenticated p
  | Failed _ => console_error "Error checking auth:" p
  end.

Definition fetchPlaylistInfo_settled (r : Outcome PlaylistInfo) (p : Page)
  : Page :=
  match r with
  | Resolved data => set_playlistInfo data p
  | Failed _ => console_error "Error fetching playlist info:" p
  end.

(** [try { ...; setNowPlaying(response.data); } catch (e) { console.error(...) }] *)
Definition fetchNowPlaying_settled (r : Outcome (option NowPlaying)) (p : Page)
  : Page :=
  match r with
  | Resolved data => set_nowPlaying data p
  | Failed _ => console_error "Error fetching now playing:" p
  end.

Definition fetchQueue_settled (r : Outcome (option (list QueueItem)))
    (p : Page) : Page :=
  match r with
  | Resolved data => set_queue (default [] data) p
  | Failed _ => console_error "Error fetching queue:" p
  end.

Definition handleSearch_settled (r : Outcome (option (list SearchTrack)))
    (p : Page) : Page :=
  match r with
  | Resolved data => set_searchResults (default [] data) p
  | Failed _ => console_error "Error searching:" p
  end.

(** ** addTrack *)

(** The synchronous part of [addTrack], up to the awaited [api.post]. *)
Definition addTrack (t : TrackRef) (p : Page) : Page :=
  if bool_decide (uri t ∈ addingRef p) then p
  else
    let p1 := set_addingRef ({[uri t]} ∪ addingRef p) p in
    let p2 := set_addingTrack (Some (uri t)) p1 in
    send (PostTrack endpoints.addTrack (uri t) (name t) (artist t) (album_art t))
         (AwAddTrack t) p2.

(** The rest of [addTrack]: the [try] tail or the [catch], then the
    [finally] block with its 2000 ms timer. *)
Definition addTrack_settled (t : TrackRef) (r : Outcome (option Z)) (p : Page)
  : Page :=
  let p1 :=
    match r with
    | Resolved pos =>
        set_searchResults []
          (setSearchQuery ""
             (set_successData
                (Some {| trackName := name t; sd_artist := artist t;
                         position := default 0 pos |}) p))
    | Failed detail => toast_error (or_default detail "Failed to add track") p
    end in
  setTimeout (DeleteAdding (uri t)) 2000 (set_addingTrack None p1).

(** ** Timers *)

Definition run_timer (cb : TimerCb) (p : Page) : Page :=
  match cb with
  | DeleteAdding u => set_addingRef (addingRef p ∖ {[u]}) p
  | DebouncedSearch q => if String.eqb q "" then p else handleSearch q p
  end.

Definition is_due (t : Z) (x : Z * TimerCb) : bool := bool_decide (x.1 <= t).

(** Time advances to [t]: every timer due by then runs and is gone.  The
    callbacks neither read the clock nor touch each other's state, so
    they are run in registration order. *)
Definition tick (t : Z) (p : Page) : Page :=
  if bool_decide (t < clock p) then p
  else
    foldl (fun q x => run_timer x.2 q)
          (set_clock t
             (set_timers (List.filter (fun x => negb (is_due t x)) (timers p)) p))
          (List.filter (is_due t) (timers p)).

Definition run_interval (cb : IntervalCb) (p : Page) : Page :=
  match cb with
  | FetchNowPlaying => fetchNowPlaying p
  | FetchQueue => fetchQueue p
  end.

(** ** Rendering *)

Inductive Card :=
| CardPlaying (np : NowPlaying)
| CardPaused
| CardNothing.

Inductive Label := LabelSpinner | LabelAdded | LabelCooldown | LabelAdd.

Record Row := mkRow {
  row_track : SearchTrack;
  row_disabled : bool;
  row_label : Label
}.

Inductive View :=
| WaitingForConnection
| Main (info : PlaylistInfo) (card : Card) (rows : list Row)
       (coming_up : list QueueItem) (overlay : option SuccessData).

Definition render_card (np : option NowPlaying) : Card :=
  match np with
  | Some d =>
      if (is_playing d && truthy (song_name d))%bool then CardPlaying d
      else if is_playing d then CardNothing else CardPaused
  | None => CardNothing
  end.

Definition render_row (adding : option string) (t : SearchTrack) : Row :=
  let isDisabled := (in_cooldown t || recently_added t)%bool in
  let isAdding := bool_decide (adding = Some (uri (s_track t))) in
  {| row_track := t;
     row_disabled := (isDisabled || isAdding)%bool;
     row_label :=
       if isAdding then LabelSpinner
       else if isDisabled
            then (if recently_added t then LabelAdded else LabelCooldown)
            else LabelAdd |}.

Definition render (p : Page) : View :=
  if negb (isAuthenticated p) then WaitingForConnection
  else Main (playlistInfo p) (render_card (nowPlaying p))
            (map (render_row (addingTrack p)) (searchResults p))
            (queue p) (successData p).

(** ** The event loop *)

Inductive Response :=
| StatusResponse (r : Outcome bool)
| PlaylistInfoResponse (r : Outcome PlaylistInfo)
| NowPlayingResponse (r : Outcome (option NowPlaying))
| QueueResponse (r : Outcome (option (list QueueItem)))
| SearchResponse (r : Outcome (option (list SearchTrack)))
| AddTrackResponse (u : string) (r : Outcome (option Z)).

Inductive Event :=
| Respond (r : Response)
| Typed (q : string)
| Clicked (i : nat)
| IntervalFired (cb : IntervalCb)
| Tick (t : Z).

(** Does the awaited promise [k] belong to the response [r]? *)
Definition answers (r : Response) (k : Awaited) : bool :=
  match r, k with
  | StatusResponse _, AwStatus => true
  | PlaylistInfoResponse _, AwPlaylistInfo => true
  | NowPlayingResponse _, AwNowPlaying => true
  | QueueResponse _, AwQueue => true
  | SearchResponse _, AwSearch => true
  | AddTrackResponse u _, AwAddTrack t => bool_decide (uri t = u)
  | _, _ => false
  end.

(** Take the oldest awaited promise satisfying [f] out of the list. *)
Fixpoint take (f : Awaited -> bool) (l : list Awaited)
  : option (Awaited * list Awaited) :=
  match l with
  | [] => None
  | k :: l' =>
      if f k then Some (k, l')
      else match take f l' with
           | Some (k', r) => Some (k', k :: r)
           | None => None
           end
  end.

Definition continue (r : Response) (k : Awaited) (p : Page) : Page :=
  match r, k with
  | StatusResponse o, _ => checkAuth_settled o p
  | PlaylistInfoResponse o, _ => fetchPlaylistInfo_settled o p
  | NowPlayingResponse o, _ => fetchNowPlaying_settled o p
  | QueueResponse o, _ => fetchQueue_settled o p
  | SearchResponse o, _ => handleSearch_settled o p
  | AddTrackResponse _ o, AwAddTrack t => addTrack_settled t o p
  | AddTrackResponse _ _, _ => p
  end.

(** A response is delivered only to a promise that is awaiting it. *)
Definition respond (r : Response) (p : Page) : Page :=
  match take (answers r) (awaiting p) with
  | Some (k, rest) => continue r k (set_awaiting rest p)
  | None => p
  end.

(** The search input and the Add buttons exist in the main view only; a
    disabled button does not call its handler. *)
Definition click (i : nat) (p : Page) : Page :=
  if isAuthenticated p then
    match searchResults p !! i with
    | Some t =>
        if row_disabled (render_row (addingTrack p) t) then p
        else addTrack (s_track t) p
    | None => p
    end
  else p.

Definition step (p : Page) (e : Event) : Page :=
  match e with
  | Respond r => respond r p
  | Typed q => if isAuthenticated p then setSearchQuery q p else p
  | Clicked i => click i p
  | IntervalFired cb =>
      if bool_decide (cb ∈ (intervals p).*1) then run_interval cb p else p
  | Tick t => tick t p
  end.

Definition run (p : Page) (evs : list Event) : Page := foldl step p evs.

(** ** Bookkeeping of the in-flight set *)

(** An add-track post for uri [u] that has not settled yet. *)
Definition adding (u : string) (k : Awaited) : bool :=
  match k with
  | AwAddTrack t => bool_decide (uri t = u)
  | _ => false
  end.

(** A pending timer that will delete [u] from [addingRef]. *)
Definition deleting (u : string) (x : Z * TimerCb) : bool :=
  match x.2 with
  | DeleteAdding v => bool_decide (v = u)
  | DebouncedSearch _ => false
  end.

Definition in_progress (u : string) (p : Page) : nat :=
  (length (List.filter (adding u) (awaiting p)) +
   length (List.filter (deleting u) (timers p)))%nat.

(** A uri is in [addingRef] exactly while one submission of it is under
    way: its post is awaited, or its deletion timer is pending. *)
Definition guard_consistent (p : Page) : Prop :=
  forall u,
    in_progress u p = if bool_decide (u ∈ addingRef p) then 1%nat else 0%nat.

(** [q] differs from [p] in nothing that concerns the guard entry of
    [u]. *)
Definition same_guard (u : string) (p q : Page) : Prop :=
  (u ∈ addingRef q <-> u ∈ addingRef p) /\
  List.filter (adding u) (awaiting q) = List.filter (adding u) (awaiting p) /\
  List.filter (deleting u) (timers q) = List.filter (deleting u) (timers p) /\
  clock q = clock p.

(** The submission of [u] has settled and its deletion timer, due at [d],
    is the only thing keeping [u] in [addingRef]. *)
Definition held_until (u : string) (d : Z) (p : Page) : Prop :=
  u ∈ addingRef p /\
  List.filter (adding u) (awaiting p) = [] /\
  List.filter (deleting u) (timers p) = [(d, DeleteAdding u)] /\
  clock p <= d.

(** An event that does not move the clock to [d] or beyond. *)
Definition before (d : Z) (e : Event) : Prop :=
  match e with
  | Tick t => t < d
  | _ => True
  end.

(** The snapshot a sequence of poll results leaves behind: the data of
    the last poll that succeeded, or what was stored before. *)
Fixpoint last_committed (stored : option NowPlaying)
    (polls : list (Outcome (option NowPlaying))) : option NowPlaying :=
  match polls with
  | [] => stored
  | Resolved data :: rest => last_committed data rest
  | Failed _ :: rest => last_committed stored rest
  end.

(** The page as long as no session was reported: nothing but the status
    request went out, nothing but its answer is awaited, and the only
    timers are debounce timers over the empty query. *)
Definition waiting (p : Page) : Prop :=
  isAuthenticated p = false /\
  intervals p = [] /\
  requests p = [Get endpoints.checkAuth] /\
  Forall (fun k => k = AwStatus) (awaiting p) /\
  Forall (fun x => x.2 = DebouncedSearch "") (timers p).

(** The status endpoint never answers [authenticated: true]. *)
Definition never_authenticated (e : Event) : Prop :=
  match e with
  | Respond (StatusResponse (Resolved true)) => False
  | _ => True
  end.

End GuestPage.

(** * The single-file pages (frontend/src/App.js) *)

Module App.

Section WithBackend.

(** [const API = `${BACKEND_URL}/api`], with [BACKEND_URL] taken from the
    build environment. *)
Variable API : string.

Inductive Toast := ToastSuccess (msg : string) | ToastError (msg : string).

(** ** The paid operations of the guest page *)

Inductive Awaited :=
| AwConfig
| AwSkipPaid
| AwMoveToNext.

(** The part of the guest page the paid operations act on, with the
    browser world.  [checkout_paid] is a fact of the world outside the
    page: whether the payment page opened in the other tab ends in a
    completed payment. *)
Record Guest := mkGuest {
  squareLink : string;
  searchQuery : string;
  searchResults : list TrackRef;
  opened : list (string * string);
  requests : list Request;
  awaiting : list Awaited;
  toasts : list Toast;
  console : list string;
  checkout_paid : bool
}.

Definition set_squareLink (v : string) (p : Guest) : Guest :=
  mkGuest v (searchQuery p) (searchResults p) (opened p) (requests p)
    (awaiting p) (toasts p) (console p) (checkout_paid p).
Definition set_search (q : string) (l : list TrackRef) (p : Guest) : Guest :=
  mkGuest (squareLink p) q l (opened p) (requests p)
    (awaiting p) (toasts p) (console p) (checkout_paid p).
Definition set_opened (v : list (string * string)) (p : Guest) : Guest :=
  mkGuest (squareLink p) (searchQuery p) (searchResults p) v (requests p)
    (awaiting p) (toasts p) (console p) (checkout_paid p).
Definition set_toasts (v : list Toast) (p : Guest) : Guest :=
  mkGuest (squareLink p) (searchQuery p) (searchResults p) (opened p)
    (requests p) (awaiting p) v (console p) (checkout_paid p).
Definition set_console (v : list string) (p : Guest) : Guest :=
  mkGuest (squareLink p) (searchQuery p) (searchResults p) (opened p)
    (requests p) (awaiting p) (toasts p) v (checkout_paid p).
Definition set_checkout_paid (v : bool) (p : Guest) : Guest :=
  mkGuest (squareLink p) (searchQuery p) (searchResults p) (opened p)
    (requests p) (awaiting p) (toasts p) (console p) v.

(** [axios.get] / [axios.post] *)
Definition send (r : Request) (k : Awaited) (p : Guest) : Guest :=
  mkGuest (squareLink p) (searchQuery p) (searchResults p) (opened p)
    (requests p ++ [r]) (awaiting p ++ [k]) (toasts p) (console p)
    (checkout_paid p).

(** [window.open(url, target)]; the returned window is dropped. *)
Definition window_open (url target : string) (p : Guest) : Guest :=
  set_opened (opened p ++ [(url, target)]) p.

Definition toast (t : Toast) (p : Guest) : Guest :=
  set_toasts (toasts p ++ [t]) p.

Definition console_error (msg : string) (p : Guest) : Guest :=
  set_console (console p ++ [msg]) p.

Definition fetchConfig (p : Guest) : Guest :=
  send (Get (API +:+ "/config")) AwConfig p.

Definition fetchConfig_settled (r : Outcome string) (p : Guest) : Guest :=
  match r with
  | Resolved square_payment_link => set_squareLink square_payment_link p
  | Failed _ => console_error "Error fetching config:" p
  end.

(** [skipQueue], up to the awaited post: open the payment link, then post
    the track as priority. *)
Definition skipQueue (t : TrackRef) (p : Guest) : Guest :=
  let p1 := window_open (squareLink p) "_blank" p in
  send (PostTrack (API +:+ "/spotify/skip-paid")
          (uri t) (name t) (artist t) (album_art t))
       AwSkipPaid p1.

Definition skipQueue_settled (r : Outcome (option string)) (p : Guest)
  : Guest :=
  match r with
  | Resolved message =>
      set_search "" []
        (toast (ToastSuccess (or_default message "Track will play next!")) p)
  | Failed detail =>
      toast (ToastError (or_default detail "Failed to add track"))
            (console_error "Error with skip:" p)
  end.

(** [moveToNext], up to the awaited post: open the payment link, then ask
    for the track to be moved to the front. *)
Definition moveToNext (t : TrackRef) (p : Guest) : Guest :=
  let p1 := window_open (squareLink p) "_blank" p in
  send (PostTrack (API +:+ "/spotify/move-to-next")
          (uri t) (name t) (artist t) (album_art t))
       AwMoveToNext p1.

Definition moveToNext_settled (r : Outcome (option string)) (p : Guest)
  : Guest :=
  match r with
  | Resolved message =>
      toast (ToastSuccess (or_default message "Track will play next!")) p
  | Failed detail =>
      toast (ToastError (or_default detail "Failed to move track"))
            (console_error "Error moving track:" p)
  end.

(** The guest page's paid flow as an event loop.  [CheckoutEnded paid]
    is the payment page in the other tab finishing, paid or abandoned;
    the page has no handler for it, only the world changes. *)
Inductive GuestEvent :=
| ConfigSettled (r : Outcome string)
| ClickPlayNext (t : TrackRef)
| ClickQueuePlayNext (t : TrackRef)
| SkipPaidSettled (r : Outcome (option string))
| MoveToNextSettled (r : Outcome (option string))
| CheckoutEnded (paid : bool).

Definition awaits (k : Awaited) (x : Awaited) : bool :=
  match k, x with
  | AwConfig, AwConfig | AwSkipPaid, AwSkipPaid
  | AwMoveToNext, AwMoveToNext => true
  | _, _ => false
  end.

(** Drop the oldest awaited promise of kind [k]. *)
Fixpoint settle_one (k : Awaited) (l : list Awaited) : option (list Awaited) :=
  match l with
  | [] => None
  | x :: l' =>
      if awaits k x then Some l'
      else match settle_one k l' with
           | Some r => Some (x :: r)
           | None => None
           end
  end.

Definition settled (k : Awaited) (f : Guest -> Guest) (p : Guest) : Guest :=
  match settle_one k (awaiting p) with
  | Some rest =>
      f (mkGuest (squareLink p) (searchQuery p) (searchResults p) (opened p)
           (requests p) rest (toasts p) (console p) (checkout_paid p))
  | None => p
  end.

Definition guest_step (p : Guest) (e : GuestEvent) : Guest :=
  match e with
  | ConfigSettled r => settled AwConfig (fetchConfig_settled r) p
  | ClickPlayNext t => skipQueue t p
  | ClickQueuePlayNext t => moveToNext t p
  | SkipPaidSettled r => settled AwSkipPaid (skipQueue_settled r) p
  | MoveToNextSettled r => settled AwMoveToNext (moveToNext_settled r) p
  | CheckoutEnded paid => set_checkout_paid paid p
  end.

Definition guest_run (p : Guest) (evs : list GuestEvent) : Guest :=
  foldl guest_step p evs.

Definition is_checkout (e : GuestEvent) : bool :=
  match e with CheckoutEnded _ => true | _ => false end.

(** ** The admin page *)

(** [new URLSearchParams(window.location.search)]: the parameters in the
    order of the query string; [get] returns the first value of a key. *)
Fixpoint URLSearchParams_get (key : string) (params : list (string * string))
  : option string :=
  match params with
  | [] => None
  | (k, v) :: rest =>
      if String.eqb k key then Some v else URLSearchParams_get key rest
  end.

Record Admin := mkAdmin {
  isAuthenticated : bool;
  loading : bool;
  admin_requests : list Request;
  status_awaited : bool;
  reset_awaited : nat;
  admin_toasts : list Toast;
  admin_console : list string;
  location_href : option string
}.

Definition admin_initial : Admin :=
  {| isAuthenticated := false; loading := true; admin_requests := [];
     status_awaited := false; reset_awaited := 0; admin_toasts := [];
     admin_console := []; location_href := None |}.

Definition setIsAuthenticated (v : bool) (a : Admin) : Admin :=
  mkAdmin v (loading a) (admin_requests a) (status_awaited a)
    (reset_awaited a) (admin_toasts a) (admin_console a) (location_href a).
Definition setLoading (v : bool) (a : Admin) : Admin :=
  mkAdmin (isAuthenticated a) v (admin_requests a) (status_awaited a)
    (reset_awaited a) (admin_toasts a) (admin_console a) (location_href a).
Definition admin_toast (t : Toast) (a : Admin) : Admin :=
  mkAdmin (isAuthenticated a) (loading a) (admin_requests a)
    (status_awaited a) (reset_awaited a) (admin_toasts a ++ [t])
    (admin_console a) (location_href a).
Definition admin_console_error (msg : string) (a : Admin) : Admin :=
  mkAdmin (isAuthenticated a) (loading a) (admin_requests a)
    (status_awaited a) (reset_awaited a) (admin_toasts a)
    (admin_console a ++ [msg]) (location_href a).
Definition navigate (url : string) (a : Admin) : Admin :=
  mkAdmin (isAuthenticated a) (loading a) (admin_requests a)
    (status_awaited a) (reset_awaited a) (admin_toasts a)
    (admin_console a) (Some url).

(** [checkAuth], up to the awaited get. *)
Definition checkAuth (a : Admin) : Admin :=
  mkAdmin (isAuthenticated a) (loading a)
    (admin_requests a ++ [Get (API +:+ "/spotify/status")]) true
    (reset_awaited a) (admin_toasts a) (admin_console a) (location_href a).

(** The rest of [checkAuth]: [try], [catch], and [finally]. *)
Definition checkAuth_settled (r : Outcome bool) (a : Admin) : Admin :=
  let a1 :=
    match r with
    | Resolved authenticated => setIsAuthenticated authenticated a
    | Failed _ => admin_console_error "Error checking auth:" a
    end in
  setLoading false a1.

(** The mount effect of the admin page. *)
Definition admin_mount (params : list (string * string)) : Admin :=
  if bool_decide (URLSearchParams_get "auth" params = Some "success")
  then setLoading false (setIsAuthenticated true admin_initial)
  else checkAuth admin_initial.

Definition handleAuth (a : Admin) : Admin :=
  navigate (API +:+ "/spotify/auth") a.

(** [handleResetQueue], up to the awaited post. *)
Definition handleResetQueue (a : Admin) : Admin :=
  mkAdmin (isAuthenticated a) (loading a)
    (admin_requests a ++ [Post (API +:+ "/admin/reset-queue-state")])
    (status_awaited a) (S (reset_awaited a)) (admin_toasts a)
    (admin_console a) (location_href a).

Definition handleResetQueue_settled (r : Outcome unit) (a : Admin) : Admin :=
  match r with
  | Resolved _ => admin_toast (ToastSuccess "Queue state reset!") a
  | Failed _ => admin_toast (ToastError "Failed to reset queue state") a
  end.

Inductive AdminView := Loading | Connected | ConnectPrompt.

Definition admin_render (a : Admin) : AdminView :=
  if loading a then Loading
  else if isAuthenticated a then Connected else ConnectPrompt.

Inductive AdminEvent :=
| StatusSettled (r : Outcome bool)
| ResetSettled (r : Outcome unit)
| ClickConnect
| ClickGuestView
| ClickReset.

(** Responses reach awaited promises only; a button can be clicked only
    in the view that shows it. *)
Definition admin_step (a : Admin) (e : AdminEvent) : Admin :=
  match e with
  | StatusSettled r =>
      if status_awaited a
      then checkAuth_settled r
             (mkAdmin (isAuthenticated a) (loading a) (admin_requests a) false
                (reset_awaited a) (admin_toasts a) (admin_console a)
                (location_href a))
      else a
  | ResetSettled r =>
      match reset_awaited a with
      | S n =>
          handleResetQueue_settled r
            (mkAdmin (isAuthenticated a) (loading a) (admin_requests a)
               (status_awaited a) n (admin_toasts a) (admin_console a)
               (location_href a))
      | O => a
      end
  | ClickConnect =>
      match admin_render a with ConnectPrompt => handleAuth a | _ => a end
  | ClickGuestView =>
      match admin_render a with Connected => navigate "/" a | _ => a end
  | ClickReset =>
      match admin_render a with Connected => handleResetQueue a | _ => a end
  end.

Definition admin_run (a : Admin) (evs : list AdminEvent) : Admin :=
  foldl admin_step a evs.

(** The admin page once the URL said [auth=success]: shown as connected,
    the status request neither sent nor awaited. *)
Definition trusted (a : Admin) : Prop :=
  isAuthenticated a = true /\
  loading a = false /\
  status_awaited a = false /\
  Forall (fun r => r = Post (API +:+ "/admin/reset-queue-state"))
         (admin_requests a).

End WithBackend.

End App.

(** * Display helpers and the success overlay *)

Module Display.

(** [s.padStart(n, c)] for a one-character pad. *)
Fixpoint pad (k : nat) (c : Ascii.ascii) (s : string) : string :=
  match k with
  | O => s
  | S k' => String c (pad k' c s)
  end.

Definition padStart (n : nat) (c : Ascii.ascii) (s : string) : string :=
  pad (n - String.length s) c s.

(** [formatTime] of GuestPage.js and App.js, on integer milliseconds of
    magnitude below 2^53, the integers a JavaScript number holds exactly;
    [None] stands for a missing value.  On that range the quotient by
    1000 is below 2^44, where a double is closer than 1/1000 to the
    exact quotient, so [Math.floor(a / b)] is the floor quotient; [%] is
    the remainder with the sign of the dividend.  Beyond the range the
    source rounds and this definition does not follow it. *)
Definition formatTime (ms : option Z) : string :=
  match ms with
  | None => "0:00"
  | Some ms =>
      if Z.eqb ms 0 then "0:00"
      else
        let seconds := ms / 1000 in
        let mins := seconds / 60 in
        let secs := Z.rem seconds 60 in
        pretty mins +:+ ":" +:+ padStart 2 "0"%char (pretty secs)
  end.

End Display.

(** The success overlay (components/SuccessOverlay.js) under the
    [successData] state of the guest page that drives it. *)
Module SuccessOverlay.

(** [successData] of the guest page, the pending dismissal timer of the
    overlay (its due time), and the clock. *)
Record Host := mkHost {
  successData : option GuestPage.SuccessData;
  dismiss_at : option Z;
  clock : Z
}.

Definition hidden (now : Z) : Host :=
  {| successData := None; dismiss_at := None; clock := now |}.

(** [isVisible={!!successData}] *)
Definition isVisible (h : Host) : bool :=
  match successData h with Some _ => true | None => false end.

(** [setSuccessData]: the overlay's effect depends on [isVisible] (and
    the stable [onComplete]), so it re-runs only when visibility flips:
    the cleanup clears the timer, and a visible overlay sets a new one,
    3000 ms ahead. *)
Definition setSuccessData (v : option GuestPage.SuccessData) (h : Host)
  : Host :=
  let now_visible := match v with Some _ => true | None => false end in
  if Bool.eqb (isVisible h) now_visible
  then {| successData := v; dismiss_at := dismiss_at h; clock := clock h |}
  else if now_visible
       then {| successData := v; dismiss_at := Some (clock h + 3000);
               clock := clock h |}
       else {| successData := v; dismiss_at := None; clock := clock h |}.

(** [handleSuccessComplete], the [onComplete] of the overlay. *)
Definition handleSuccessComplete (h : Host) : Host := setSuccessData None h.

(** Time advances to [t]; a due timer runs [onComplete]. *)
Definition tick (t : Z) (h : Host) : Host :=
  if bool_decide (t < clock h) then h
  else
    match dismiss_at h with
    | Some d =>
        if bool_decide (d <= t)
        then handleSuccessComplete
               {| successData := successData h; dismiss_at := None;
                  clock := t |}
        else {| successData := successData h; dismiss_at := Some d;
                clock := t |}
    | None =>
        {| successData := successData h; dismiss_at := None; clock := t |}
    end.

Inductive View :=
| Nothing
| Added (trackName artist : string) (badge : option Z).

(** [if (!isVisible) return null;], and the position badge under
    [position > 0 &&]. *)
Definition render (h : Host) : View :=
  match successData h with
  | None => Nothing
  | Some d =>
      Added (GuestPage.trackName d) (GuestPage.sd_artist d)
            (if bool_decide (0 < GuestPage.position d)
             then Some (GuestPage.position d) else None)
  end.

Inductive Event :=
| Succeeded (d : GuestPage.SuccessData)
| Tick (t : Z).

Definition step (h : Host) (e : Event) : Host :=
  match e with
  | Succeeded d => setSuccessData (Some d) h
  | Tick t => tick t h
  end.

Definition run (h : Host) (evs : list Event) : Host := foldl step h evs.

(** An event that does not move the clock to [d] or beyond. *)
Definition before (d : Z) (e : Event) : Prop :=
  match e with
  | Tick t => t < d
  | Succeeded _ => True
  end.

(** The data of the last success in a list of events, if any. *)
Definition last_success (evs : list Event) : option GuestPage.SuccessData :=
  foldl (fun acc e => match e with Succeeded d => Some d | Tick _ => acc end)
        None evs.

End SuccessOverlay.

(** * Vocabulary for the page invariants *)

Module GuestPageAux.
Import GuestPage.

(** The requests the guest page sends after the status check: reads of
    the playlist info, the playback and the queue, searches, and
    add-track posts. *)
Definition follow_up (r : Request) : Prop :=
  match r with
  | Get path =>
      path = endpoints.getPlaylistInfo \/ path = endpoints.getNowPlaying \/
      path = endpoints.getQueue
  | PostQuery path _ => path = endpoints.search
  | PostTrack path _ _ _ _ => path = endpoints.addTrack
  | Post _ => False
  end.

Definition is_status (k : Awaited) : bool :=
  match k with AwStatus => true | _ => false end.

(** The intervals of a page, by whether a session was reported. *)
Definition polling_intervals (authenticated : bool)
  : list (IntervalCb * Z) :=
  if authenticated then [(FetchNowPlaying, 2000); (FetchQueue, 3000)] else [].

(** The request a debounced search for [q] sends, if any. *)
Definition search_post (q : string) : list Request :=
  if is_blank q then [] else [PostQuery endpoints.search q].

Definition timer_post (x : Z * TimerCb) : list Request :=
  match x.2 with
  | DebouncedSearch q => search_post q
  | DeleteAdding _ => []
  end.

Definition debounce_timers (p : Page) : list (Z * TimerCb) :=
  List.filter (fun x => is_debounce x.2) (timers p).

(** A debounced search for [q] empties the result list exactly when [q]
    is not empty and yet blank. *)
Definition clears_results (q : string) : bool :=
  (negb (String.eqb q "") && is_blank q)%bool.

Definition timer_clears (x : Z * TimerCb) : bool :=
  match x.2 with
  | DebouncedSearch q => clears_results q
  | DeleteAdding _ => false
  end.

End GuestPageAux.

Module AppAux.
Import App.

(** The guest page of App.js before its first render: [squareLink] is
    the empty string until the configuration arrives. *)
Definition guest_initial : Guest :=
  {| squareLink := ""; searchQuery := ""; searchResults := [];
     opened := []; requests := []; awaiting := []; toasts := [];
     console := []; checkout_paid := false |}.

Definition config_loaded (e : GuestEvent) : bool :=
  match e with ConfigSettled (Resolved _) => true | _ => false end.

(** The two requests of the paid flow. *)
Definition is_priority_post (API : string) (r : Request) : bool :=
  match r with
  | PostTrack path _ _ _ _ =>
      (String.eqb path (API +:+ "/spotify/skip-paid")
       || String.eqb path (API +:+ "/spotify/move-to-next"))%bool
  | _ => false
  end.

Definition is_reset_post (API : string) (r : Request) : bool :=
  match r with
  | Post path => String.eqb path (API +:+ "/admin/reset-queue-state")
  | _ => false
  end.

(** The admin page after a status check that did not report a
    session: on the connect prompt, nothing awaited, the status request
    the only one sent. *)
Definition refused (API : string) (a : Admin) : Prop :=
  isAuthenticated a = false /\ loading a = false /\
  status_awaited a = false /\
  admin_requests a = [Get (API +:+ "/spotify/status")].

End AppAux.

(** * Sample data *)

Module Samples.

Definition cfg : Engine.Config :=
  {| Engine.cooldown_window := 3600000; Engine.guard_window := 2000 |}.

Definition trackA : TrackRef :=
  {| uri := "spotify:track:A"; name := "Alpha"; artist := "Ann";
     album_art := None |}.

Definition trackB : TrackRef :=
  {| uri := "spotify:track:B"; name := "Beta"; artist := "Bob";
     album_art := Some "https://img.example/b.png" |}.

(** A guest adds A to the free line at time 0; a paid request for B
    follows at 10 ms. *)
Definition free_A : Engine.Submission :=
  {| Engine.paid := false; Engine.what := trackA; Engine.who := None;
     Engine.at_time := 0; Engine.outcome := Engine.Ack |}.

Definition paid_B : Engine.Submission :=
  {| Engine.paid := true; Engine.what := trackB; Engine.who := None;
     Engine.at_time := 10; Engine.outcome := Engine.Ack |}.

(** A is accepted at time 0 and starts playing at 500 ms: its uri is
    still in the in-flight guard and already has a cooldown record. *)
Definition guarded_and_cooling : Engine.State :=
  Engine.run cfg Engine.init
    [Engine.Submit free_A; Engine.TrackChange "spotify:track:A" 500].

(** A session is reported, the guest types a query, the debounce timer
    fires at 300 ms, the search answers with track A, and the guest
    clicks its Add button: the add-track post for A is in flight. *)
Definition searching_and_adding : list GuestPage.Event :=
  [GuestPage.Respond (GuestPage.StatusResponse (Resolved true));
   GuestPage.Typed "alpha";
   GuestPage.Tick 300;
   GuestPage.Respond
     (GuestPage.SearchResponse
        (Resolved
           (Some [ {| GuestPage.s_track := trackA;
                      GuestPage.in_cooldown := false;
                      GuestPage.recently_added := false;
                      GuestPage.cooldown_minutes := 0 |} ])));
   GuestPage.Clicked 0].

End Samples.

(** * Verified properties *)

(** ** The queue engine *)

Module EngineFacts.
Import Engine.

Lemma insert_priority_app (e : QueueEntry) (P F : list QueueEntry) :
  Forall (fun x => is_priority x = true) P ->
  Forall (fun x => is_priority x = false) F ->
  insert_priority e (P ++ F) = P ++ e :: F.
Proof.
  intros HP HF. induction HP as [|x P Hx _ IH]; simpl.
  - destruct HF as [|y F Hy _]; simpl; [done|]. by rewrite Hy.
  - by rewrite Hx, IH.
Qed.

(** What a submission does to the queue: nothing on failure, an append
    (free) or an insertion before the first free entry (paid) on
    success. *)
Lemma submit_entries cfg st s :
  entries (submit cfg st s).1 =
    match (submit cfg st s).2 with
    | inr _ =>
        if paid s then insert_priority (entry_of s) (entries st)
        else entries st ++ [entry_of s]
    | inl _ => entries st
    end.
Proof.
  unfold submit, add_priority, add_free, entry_of.
  destruct (paid s); destruct (in_guard _ _ _ _); simpl; try done;
    destruct (is_in_cooldown _ _ _ _); simpl; try done;
    destruct (outcome s); done.
Qed.

Lemma accepted_partition cfg subs : forall st P F,
  entries st = P ++ F ->
  Forall (fun x => is_priority x = true) P ->
  Forall (fun x => is_priority x = false) F ->
  entries (run_submissions cfg st subs) =
    (P ++ List.filter is_priority (accepted cfg st subs)) ++
    (F ++ List.filter (fun x => negb (is_priority x)) (accepted cfg st subs)).
Proof.
  induction subs as [|s subs IH]; intros st P F HE HP HF; simpl.
  - by rewrite !app_nil_r.
  - pose proof (submit_entries cfg st s) as Hs.
    destruct ((submit cfg st s).2) as [err|pos].
    + apply IH; [congruence|done..].
    + assert (is_priority (entry_of s) = paid s) as Hprio by done.
      cbn [List.filter]. rewrite Hprio.
      destruct (paid s) eqn:Hpaid; cbn [negb].
      * rewrite HE, insert_priority_app in Hs by done.
        rewrite (IH _ (P ++ [entry_of s]) F).
        -- by rewrite <- !app_assoc.
        -- by rewrite Hs, <- app_assoc.
        -- apply Forall_app; split; [done|]. by constructor.
        -- done.
      * rewrite (IH _ P (F ++ [entry_of s])).
        -- by rewrite <- !app_assoc.
        -- by rewrite Hs, HE, <- app_assoc.
        -- done.
        -- apply Forall_app; split; [done|]. by constructor.
Qed.

Lemma partitioned_app (P F : list QueueEntry) :
  Forall (fun x => is_priority x = true) P ->
  Forall (fun x => is_priority x = false) F ->
  partitioned (P ++ F).
Proof.
  intros HP HF. unfold partitioned. apply StronglySorted_app. split_and!.
  - intros x y Hx Hy Hprio. by eapply Forall_forall in HP.
  - induction HP as [|x P Hx HP IH]; constructor; [done|].
    apply Forall_forall. by intros y _ _.
  - induction HF as [|x F Hx HF IH]; constructor; [done|].
    apply Forall_forall. intros y Hy Hprio.
    eapply Forall_forall in HF; [|done]. congruence.
Qed.

Lemma partitioned_split (l : list QueueEntry) :
  partitioned l ->
  exists P F, l = P ++ F /\
    Forall (fun x => is_priority x = true) P /\
    Forall (fun x => is_priority x = false) F.
Proof.
  unfold partitioned.
  induction 1 as [|x l Hl IH Hx].
  - exists [], []. by repeat split.
  - destruct (is_priority x) eqn:Hprio.
    + destruct IH as (P & F & -> & HP & HF).
      exists (x :: P), F. repeat split; [|done]. by constructor.
    + exists [], (x :: l). repeat split; [done|].
      constructor; [done|].
      eapply Forall_impl; [exact Hx|]. intros y Hy.
      destruct (is_priority y) eqn:Hy'; [|done].
      specialize (Hy Hy'). congruence.
Qed.

Lemma extract_Some u l e rest :
  extract u l = Some (e, rest) ->
  exists l1 l2, l = l1 ++ e :: l2 /\ rest = l1 ++ l2 /\
    uri (track e) = u /\ Forall (fun x => uri (track x) <> u) l1.
Proof.
  revert e rest. induction l as [|x l IH]; intros e rest; simpl; [done|].
  case_bool_decide as Hx.
  - intros [= <- <-]. exists [], l. by repeat split.
  - destruct (extract u l) as [[y r]|] eqn:Hext; [|done].
    intros [= <- <-]. destruct (IH _ _ eq_refl) as (l1 & l2 & -> & -> & Hu & Hl1).
    exists (x :: l1), l2. repeat split; [done|]. by constructor.
Qed.

Lemma extract_None u l :
  extract u l = None <-> Forall (fun x => uri (track x) <> u) l.
Proof.
  induction l as [|x l IH]; simpl; [by split|].
  case_bool_decide as Hx.
  - split; [done|]. by inversion 1.
  - destruct (extract u l) as [[y r]|] eqn:Hext.
    + split; [done|]. intros Hall. apply Forall_cons in Hall as [_ Hall].
      by apply IH in Hall.
    + split; [|done]. intros _. constructor; [done|]. by apply IH.
Qed.

Lemma partitioned_filter (f : QueueEntry -> bool) l :
  partitioned l -> partitioned (List.filter f l).
Proof.
  unfold partitioned. induction 1 as [|x l Hl IH Hx]; simpl; [constructor|].
  destruct (f x); [|done]. constructor; [done|].
  apply Forall_forall. intros y Hy. apply list_elem_of_In, filter_In in Hy.
  destruct Hy as [Hy _]. eapply Forall_forall in Hx; [done|].
  by apply list_elem_of_In.
Qed.

(** Every engine operation keeps the priority entries in front. *)
Lemma apply_partitioned cfg st o :
  partitioned (entries st) -> partitioned (entries (apply cfg st o)).
Proof.
  intros Hp. destruct o as [s|u|u a|pl uq|]; simpl.
  - rewrite submit_entries. destruct ((submit cfg st s).2); [done|].
    destruct (partitioned_split _ Hp) as (P & F & -> & HP & HF).
    destruct (paid s) eqn:Hpaid.
    + rewrite insert_priority_app by done.
      replace (P ++ entry_of s :: F) with ((P ++ [entry_of s]) ++ F)
        by (by rewrite <- app_assoc).
      apply partitioned_app; [|done].
      apply Forall_app; split; [done|]. by constructor.
    + rewrite <- app_assoc. apply partitioned_app; [done|].
      apply Forall_app; split; [done|]. constructor; [|done].
      unfold entry_of; simpl. done.
  - unfold promote_existing.
    destruct (extract u (entries st)) as [[e rest]|] eqn:Hext; simpl; [|done].
    destruct (extract_Some _ _ _ _ Hext) as (l1 & l2 & Hl & -> & _ & _).
    rewrite Hl in Hp. unfold partitioned in *.
    constructor.
    + apply StronglySorted_app in Hp as (H12 & H1 & H2).
      apply StronglySorted_app. split_and!; [|done|by inversion H2].
      intros x y Hx Hy. apply H12; [done|]. by constructor.
    + apply Forall_forall. by intros y _ _.
  - done.
  - by apply partitioned_filter.
  - constructor.
Qed.

Lemma run_partitioned cfg ops : forall st,
  partitioned (entries st) -> partitioned (entries (run cfg st ops)).
Proof.
  induction ops as [|o ops IH]; intros st Hp; simpl; [done|].
  apply IH. by apply apply_partitioned.
Qed.

Lemma partitioned_lookup (l : list QueueEntry) : forall (i j : nat) e f,
  partitioned l ->
  l !! i = Some e -> l !! j = Some f ->
  is_priority e = true -> is_priority f = false ->
  (i < j)%nat.
Proof.
  unfold partitioned.
  induction l as [|x l IH]; intros i j e f Hs Hi Hj He Hf; [done|].
  apply StronglySorted_cons in Hs as [Hx Hs].
  destruct i as [|i], j as [|j]; simpl in *.
  - congruence.
  - lia.
  - injection Hj as ->.
    eapply Forall_forall in Hx; [|by eapply list_elem_of_lookup_2].
    specialize (Hx He). congruence.
  - apply -> Nat.succ_lt_mono. by eapply IH.
Qed.

(** C1. For every interleaving of add_free and add_priority calls
    (whatever their outcomes), list() is the accepted priority entries in
    submission order followed by the accepted free entries in submission
    order.  Over all engine operations, promote_existing included, every
    priority entry of list() still sits at a smaller index than every
    free entry; only the FIFO order inside the priority partition is
    given up by a promotion, which puts its entry at index 0. *)
Theorem list_priority_first_fifo (cfg : Config) :
  (forall subs : list Submission,
     list_ (run_submissions cfg init subs) =
       List.filter is_priority (accepted cfg init subs) ++
       List.filter (fun x => negb (is_priority x)) (accepted cfg init subs))
  /\
  (forall (ops : list Op) (i j : nat) (e f : QueueEntry),
     list_ (run cfg init ops) !! i = Some e ->
     list_ (run cfg init ops) !! j = Some f ->
     is_priority e = true -> is_priority f = false ->
     (i < j)%nat).
Proof.
  split.
  - intros subs. unfold list_.
    by rewrite (accepted_partition cfg subs init [] []).
  - intros ops i j e f. unfold list_.
    apply partitioned_lookup, run_partitioned. constructor.
Qed.

Lemma list_priority_first_fifo_witness :
  let ops := [Submit Samples.free_A; Submit Samples.paid_B] in
  list_ (run Samples.cfg init ops) !! 0%nat = Some (entry_of Samples.paid_B) /\
  list_ (run Samples.cfg init ops) !! 1%nat = Some (entry_of Samples.free_A) /\
  (0 < 1)%nat.
Proof.
  intros ops. split; [|split]; [reflexivity..|].
  apply (proj2 (list_priority_first_fifo Samples.cfg) ops 0%nat 1%nat
           (entry_of Samples.paid_B) (entry_of Samples.free_A));
    reflexivity.
Defined.

(** The acceptance scenario of the specification: B is added to the free
    line at position 1, promoted to the front as a priority entry, and
    dropped by reconcile once it is the playing track. *)
Example scenario_add_promote_reconcile :
  let b :=
    {| paid := false; what := Samples.trackB; who := None; at_time := 50000;
       outcome := Ack |} in
  let added := submit Samples.cfg init b in
  let promoted_ := promote_existing added.1 (uri Samples.trackB) in
  added.2 = inr 1%nat /\
  (exists e, list_ promoted_.1 !! 0%nat = Some e /\
             uri (track e) = uri Samples.trackB /\ is_priority e = true) /\
  list_ (reconcile promoted_.1 (Some (uri Samples.trackB)) []) = [].
Proof.
  split_and!; [reflexivity| |reflexivity].
  eexists. split_and!; reflexivity.
Qed.

(** *** Cooldown *)

Lemma remaining_pos cfg st u now :
  0 < remaining cfg st u now <->
  exists last_played_at,
    cooldowns st !! u = Some last_played_at /\
    now - last_played_at < cooldown_window cfg.
Proof.
  unfold remaining. destruct (cooldowns st !! u) as [lp|].
  - split.
    + intros H. exists lp. split; [done|lia].
    + intros (lp' & [= <-] & H). lia.
  - split; [lia|]. by intros (lp & ? & _).
Qed.

Lemma add_free_InCooldown cfg st t who now up :
  (add_free cfg st t who now up).2 = inl InCooldown <->
  in_guard cfg st (uri t) now = false /\ 0 < remaining cfg st (uri t) now.
Proof.
  unfold add_free, is_in_cooldown.
  destruct (in_guard cfg st (uri t) now); simpl.
  - split; [done|]. by intros [? _].
  - case_bool_decide as Hrem; simpl.
    + by split.
    + split; [|by intros [_ ?]]. by destruct up.
Qed.

(** Cooldown and [add_free], with the guard tested first as [add_free]
    has it.  add_free fails with InCooldown exactly when the uri
    is not held by the in-flight guard and remaining(uri, now) > 0;
    remaining(uri, now) is max(0, cooldown_window - (now - last_played_at)),
    zero without a record, and positive exactly when a record exists with
    now - last_played_at < cooldown_window; and once cooldown_window has
    elapsed since the recorded play, add_free no longer fails with
    InCooldown and, with the guard free and the upstream write
    acknowledged, accepts the track at the end of the queue.  On the
    guest page the Add button of a search result flagged [in_cooldown] is
    disabled, so a click on it submits nothing. *)
Theorem add_free_cooldown (cfg : Config) (st : State) (t : TrackRef)
    (who : option string) (now : Z) (up : Upstream) :
  ((add_free cfg st t who now up).2 = inl InCooldown <->
     in_guard cfg st (uri t) now = false /\ 0 < remaining cfg st (uri t) now)
  /\
  (0 < remaining cfg st (uri t) now <->
     exists last_played_at,
       cooldowns st !! uri t = Some last_played_at /\
       now - last_played_at < cooldown_window cfg)
  /\
  (cooldowns st !! uri t = None -> remaining cfg st (uri t) now = 0)
  /\
  (forall last_played_at,
     cooldowns st !! uri t = Some last_played_at ->
     remaining cfg st (uri t) now =
       Z.max 0 (cooldown_window cfg - (now - last_played_at)))
  /\
  (forall last_played_at,
     cooldowns st !! uri t = Some last_played_at ->
     cooldown_window cfg <= now - last_played_at ->
     remaining cfg st (uri t) now = 0 /\
     (add_free cfg st t who now up).2 <> inl InCooldown /\
     (in_guard cfg st (uri t) now = false ->
      (add_free cfg st t who now Ack).2 = inr (S (length (entries st)))))
  /\
  (forall (p : GuestPage.Page) (i : nat) (r : GuestPage.SearchTrack),
     GuestPage.searchResults p !! i = Some r ->
     GuestPage.in_cooldown r = true ->
     GuestPage.row_disabled (GuestPage.render_row (GuestPage.addingTrack p) r)
       = true /\
     GuestPage.click i p = p).
Proof.
  split_and!.
  - apply add_free_InCooldown.
  - apply remaining_pos.
  - unfold remaining. by intros ->.
  - intros lp Hlp. unfold remaining. by rewrite Hlp.
  - intros lp Hlp Hwin.
    assert (remaining cfg st (uri t) now = 0) as Hrem
      by (unfold remaining; rewrite Hlp; lia).
    split_and!; [done| |].
    + rewrite add_free_InCooldown. intros [_ ?]. lia.
    + intros Hg. unfold add_free, is_in_cooldown. rewrite Hg, Hrem. simpl.
      rewrite length_app. simpl. f_equal. lia.
  - intros p i r Hr Hcool.
    assert (GuestPage.row_disabled
              (GuestPage.render_row (GuestPage.addingTrack p) r) = true)
      as Hdis by (simpl; by rewrite Hcool).
    split; [done|]. unfold GuestPage.click.
    destruct (GuestPage.isAuthenticated p); [|done]. by rewrite Hr, Hdis.
Qed.

Lemma add_free_cooldown_witness :
  let st := on_track_change init "spotify:track:A" 0 in
  remaining Samples.cfg st "spotify:track:A" 3600000 = 0 /\
  (add_free Samples.cfg st Samples.trackA None 3600000 Ack).2 = inr 1%nat.
Proof.
  intros st.
  destruct (add_free_cooldown Samples.cfg st Samples.trackA None 3600000 Ack)
    as (_ & _ & _ & _ & H & _).
  destruct (H 0) as (Hrem & _ & Hadd); [reflexivity|vm_compute; discriminate|].
  split; [exact Hrem|]. apply Hadd. reflexivity.
Defined.

(** Where the order of the two tests shows: at 1000 ms the uri of A is
    both in the in-flight guard and in cooldown, and [add_free], which
    tests the guard first, answers DuplicateInFlight although remaining
    is positive. *)
Lemma add_free_cooldown_guard_first :
  ~ ((add_free Samples.cfg Samples.guarded_and_cooling Samples.trackA None
        1000 Ack).2 = inl InCooldown <->
     0 < remaining Samples.cfg Samples.guarded_and_cooling
           (uri Samples.trackA) 1000).
Proof.
  assert ((add_free Samples.cfg Samples.guarded_and_cooling Samples.trackA
             None 1000 Ack).2 = inl DuplicateInFlight) as Hres
    by (vm_compute; reflexivity).
  assert (remaining Samples.cfg Samples.guarded_and_cooling
            (uri Samples.trackA) 1000 = 3599500) as Hrem
    by (vm_compute; reflexivity).
  rewrite Hres, Hrem. intros [_ H]. by specialize (H eq_refl).
Qed.

(** With the cooldown tested first, add_free fails with InCooldown
    exactly when remaining(uri, now) > 0, whatever the guard holds. *)
Lemma add_free_cooldown_first_InCooldown cfg st t who now up :
  (add_free_cooldown_first cfg st t who now up).2 = inl InCooldown <->
  0 < remaining cfg st (uri t) now.
Proof.
  unfold add_free_cooldown_first, is_in_cooldown.
  case_bool_decide as Hrem; simpl; [done|].
  split; [|done]. destruct (in_guard cfg st (uri t) now); [done|].
  by destruct up.
Qed.

(** The two readings answer alike unless the uri is guarded and cooling
    at once. *)
Lemma add_free_orders_agree cfg st t who now up :
  in_guard cfg st (uri t) now = false \/
  is_in_cooldown cfg st (uri t) now = false ->
  add_free_cooldown_first cfg st t who now up = add_free cfg st t who now up.
Proof.
  unfold add_free_cooldown_first, add_free.
  destruct (in_guard cfg st (uri t) now), (is_in_cooldown cfg st (uri t) now);
    try done. by intros [?|?].
Qed.

(** *** Promotion *)

(** C5. When some tracked entry has uri [u], promote_existing succeeds and
    list() then starts with that entry, reclassified as priority, whatever
    its position was (the first entry with the uri is the one taken, the
    others keep their order); when no tracked entry has the uri it fails
    with NotFound and the state is unchanged. *)
Theorem promote_existing_front (st : State) (u : string) :
  (forall x, x ∈ entries st -> uri (track x) = u ->
     exists e l1 l2,
       entries st = l1 ++ e :: l2 /\
       promote_existing st u =
         (with_entries st (promoted e :: l1 ++ l2), inr true) /\
       list_ (promote_existing st u).1 !! 0%nat = Some (promoted e) /\
       uri (track (promoted e)) = u /\
       is_priority (promoted e) = true)
  /\
  ((forall x, x ∈ entries st -> uri (track x) <> u) ->
     promote_existing st u = (st, inl NotFound) /\
     list_ (promote_existing st u).1 = list_ st).
Proof.
  unfold promote_existing. split.
  - intros x Hx Hu.
    destruct (extract u (entries st)) as [[e rest]|] eqn:Hext.
    + destruct (extract_Some _ _ _ _ Hext) as (l1 & l2 & Hl & -> & Hue & _).
      exists e, l1, l2. by repeat split.
    + apply extract_None in Hext.
      eapply Forall_forall in Hext; [|exact Hx]. done.
  - intros Hnone.
    assert (extract u (entries st) = None) as ->; [|done].
    apply extract_None, Forall_forall. exact Hnone.
Qed.

Lemma promote_existing_front_witness :
  let st := run Samples.cfg init [Submit Samples.paid_B; Submit Samples.free_A] in
  (exists e, list_ (promote_existing st "spotify:track:A").1 !! 0%nat
               = Some (promoted e) /\
             uri (track (promoted e)) = "spotify:track:A") /\
  promote_existing st "spotify:track:C" = (st, inl NotFound).
Proof.
  intros st.
  destruct (promote_existing_front st "spotify:track:A") as [Hfound _].
  destruct (promote_existing_front st "spotify:track:C") as [_ Hnone].
  split.
  - destruct (Hfound (entry_of Samples.free_A))
      as (e & l1 & l2 & _ & _ & Hhead & Huri & _).
    + vm_compute. apply list_elem_of_further, list_elem_of_here.
    + reflexivity.
    + exists e. by split.
  - apply Hnone. intros x Hx.
    vm_compute in Hx.
    apply elem_of_cons in Hx as [->|Hx]; [vm_compute; discriminate|].
    apply elem_of_cons in Hx as [->|Hx]; [vm_compute; discriminate|].
    by apply elem_of_nil in Hx.
Defined.

(** *** Reset *)

(** C6. reset() empties the tracked entries and the in-flight guard and
    leaves the cooldown records as they are: no uri is guarded after it,
    is_in_cooldown answers as before, and a track whose record is still
    within the cooldown window is still in cooldown.  The admin page
    triggers it with a bare POST to /admin/reset-queue-state. *)
Theorem reset_keeps_cooldowns (cfg : Config) (st : State) :
  entries (reset st) = [] /\
  in_flight (reset st) = ∅ /\
  cooldowns (reset st) = cooldowns st /\
  (forall u now, in_guard cfg (reset st) u now = false) /\
  (forall u now,
     is_in_cooldown cfg (reset st) u now = is_in_cooldown cfg st u now) /\
  (forall u last_played_at now,
     cooldowns st !! u = Some last_played_at ->
     now - last_played_at < cooldown_window cfg ->
     is_in_cooldown cfg (reset st) u now = true) /\
  (forall API a,
     App.admin_requests (App.handleResetQueue API a) =
       App.admin_requests a ++ [Post (API +:+ "/admin/reset-queue-state")]).
Proof.
  split_and!; try done.
  intros u lp now Hlp Hwin. unfold is_in_cooldown.
  apply bool_decide_eq_true, remaining_pos. exists lp. by split.
Qed.

Lemma reset_keeps_cooldowns_witness :
  is_in_cooldown Samples.cfg (reset Samples.guarded_and_cooling)
    "spotify:track:A" 1000 = true.
Proof.
  destruct (reset_keeps_cooldowns Samples.cfg Samples.guarded_and_cooling)
    as (_ & _ & _ & _ & _ & H & _).
  apply (H "spotify:track:A" 500 1000); reflexivity.
Defined.

(** *** Duplicate submissions *)

Lemma submit_guarded cfg st s :
  in_guard cfg st (uri (what s)) (at_time s) = true ->
  submit cfg st s = (st, inl DuplicateInFlight).
Proof.
  intros Hg. unfold submit, add_priority, add_free. rewrite Hg.
  by destruct (paid s).
Qed.

Lemma submit_accepted cfg st s pos :
  (submit cfg st s).2 = inr pos ->
  in_flight (submit cfg st s).1 !! uri (what s) = Some (at_time s).
Proof.
  unfold submit, add_priority, add_free.
  destruct (paid s); destruct (in_guard _ _ _ _); simpl; try done;
    destruct (is_in_cooldown _ _ _ _); simpl; try done;
    destruct (outcome s); simpl; try done; intros _;
    apply lookup_insert_eq.
Qed.

(** Two submissions of one track, the second within the guard window of
    the first, which was accepted: the second fails with
    DuplicateInFlight and one entry in all was created. *)
Lemma submit_twice cfg st s1 s2 pos :
  uri (what s2) = uri (what s1) ->
  at_time s2 - at_time s1 < guard_window cfg ->
  (submit cfg st s1).2 = inr pos ->
  submit cfg (submit cfg st s1).1 s2 =
    ((submit cfg st s1).1, inl DuplicateInFlight) /\
  accepted cfg st [s1; s2] = [entry_of s1].
Proof.
  intros Hu Hw Hacc.
  assert (submit cfg (submit cfg st s1).1 s2 =
            ((submit cfg st s1).1, inl DuplicateInFlight)) as H2.
  { apply submit_guarded. unfold in_guard.
    rewrite Hu, (submit_accepted _ _ _ _ Hacc).
    by apply bool_decide_eq_true. }
  split; [done|]. simpl. by rewrite Hacc, H2.
Qed.

End EngineFacts.

(** ** The guest page *)

Module GuestPageFacts.
Import GuestPage.

(** *** Polling *)

Lemma take_Some (f : Awaited -> bool) l k rest :
  take f l = Some (k, rest) ->
  f k = true /\ exists l1 l2, l = l1 ++ k :: l2 /\ rest = l1 ++ l2.
Proof.
  revert k rest. induction l as [|x l IH]; intros k rest; simpl; [done|].
  destruct (f x) eqn:Hx.
  - intros [= <- <-]. split; [done|]. by exists [], l.
  - destruct (take f l) as [[k' r]|]; [|done].
    intros [= <- <-]. destruct (IH _ _ eq_refl) as (Hk & l1 & l2 & -> & ->).
    split; [done|]. by exists (x :: l1), l2.
Qed.

Lemma take_None (f : Awaited -> bool) l :
  take f l = None <-> List.filter f l = [].
Proof.
  induction l as [|x l IH]; simpl; [done|].
  destruct (f x); [done|].
  destruct (take f l) as [[k r]|]; [|done].
  split; [done|]. intros H. by apply IH in H.
Qed.

Lemma fetchNowPlaying_settled_polls polls : forall p,
  nowPlaying (foldl (fun q r => fetchNowPlaying_settled r q) p polls) =
    last_committed (nowPlaying p) polls.
Proof.
  induction polls as [|[data|detail] polls IH]; intros p; simpl; [done|..];
    by rewrite IH.
Qed.

(** C7. A failed now-playing poll leaves the stored snapshot, the rendered
    view and the toasts as they were and only logs to the console; this
    holds for the continuation of [fetchNowPlaying] and for the delivery
    of a failed response in the event loop.  After any sequence of poll
    results the stored snapshot is that of the last successful poll. *)
Theorem failed_poll_keeps_snapshot (p : Page) (detail : option string) :
  (nowPlaying (fetchNowPlaying_settled (Failed detail) p) = nowPlaying p /\
   render (fetchNowPlaying_settled (Failed detail) p) = render p /\
   toasts (fetchNowPlaying_settled (Failed detail) p) = toasts p /\
   console (fetchNowPlaying_settled (Failed detail) p) =
     console p ++ ["Error fetching now playing:"])
  /\
  (nowPlaying (step p (Respond (NowPlayingResponse (Failed detail))))
     = nowPlaying p /\
   render (step p (Respond (NowPlayingResponse (Failed detail)))) = render p /\
   toasts (step p (Respond (NowPlayingResponse (Failed detail)))) = toasts p)
  /\
  (forall polls,
     nowPlaying (foldl (fun q r => fetchNowPlaying_settled r q) p polls) =
       last_committed (nowPlaying p) polls).
Proof.
  split_and!; try done.
  - simpl. unfold respond. by destruct (take _ _) as [[k rest]|].
  - simpl. unfold respond. by destruct (take _ _) as [[k rest]|].
  - simpl. unfold respond. by destruct (take _ _) as [[k rest]|].
  - intros polls. apply fetchNowPlaying_settled_polls.
Qed.

(** *** The in-flight set *)

Lemma filter_filter_comm {A} (f g : A -> bool) (l : list A) :
  List.filter f (List.filter g l) = List.filter g (List.filter f l).
Proof.
  induction l as [|x l IH]; simpl; [done|].
  destruct (f x) eqn:Hf, (g x) eqn:Hg; simpl; rewrite ?Hf, ?Hg, ?IH; done.
Qed.

Lemma filter_length_split {A} (f g : A -> bool) (l : list A) :
  length (List.filter f l) =
    (length (List.filter f (List.filter g l)) +
     length (List.filter f (List.filter (fun x => negb (g x)) l)))%nat.
Proof.
  induction l as [|x l IH]; simpl; [done|].
  destruct (f x) eqn:Hf, (g x) eqn:Hg; simpl; rewrite ?Hf; simpl; lia.
Qed.

Lemma filter_filter_absorb {A} (f g : A -> bool) (l : list A) :
  (forall x, f x = true -> g x = true) ->
  List.filter f (List.filter g l) = List.filter f l.
Proof.
  intros Hfg. induction l as [|x l IH]; simpl; [done|].
  destruct (f x) eqn:Hf.
  - rewrite (Hfg x Hf). simpl. by rewrite Hf, IH.
  - destruct (g x); simpl; by rewrite ?Hf, IH.
Qed.

Lemma deleting_not_debounce u (l : list (Z * TimerCb)) :
  List.filter (deleting u) (List.filter (fun x => negb (is_debounce x.2)) l)
    = List.filter (deleting u) l.
Proof.
  apply filter_filter_absorb. intros [d [v|q]]; by unfold deleting.
Qed.

Lemma same_guard_refl u p : same_guard u p p.
Proof. by repeat split. Qed.

Lemma same_guard_trans u p q r :
  same_guard u p q -> same_guard u q r -> same_guard u p r.
Proof.
  intros (H1 & H2 & H3 & H4) (H1' & H2' & H3' & H4').
  repeat split; try congruence; tauto.
Qed.

Lemma same_guard_send u r k p :
  adding u k = false -> same_guard u p (send r k p).
Proof.
  intros Hk. unfold same_guard, send. simpl.
  rewrite List.filter_app. simpl. rewrite Hk, app_nil_r. by repeat split.
Qed.

Lemma same_guard_setSearchQuery u q p : same_guard u p (setSearchQuery q p).
Proof.
  unfold setSearchQuery. destruct (String.eqb q (searchQuery p));
    [apply same_guard_refl|].
  unfold same_guard. simpl.
  rewrite List.filter_app, deleting_not_debounce. simpl.
  rewrite app_nil_r. by repeat split.
Qed.

Lemma same_guard_setIsAuthenticated u v p :
  same_guard u p (setIsAuthenticated v p).
Proof.
  unfold setIsAuthenticated. destruct (Bool.eqb v (isAuthenticated p));
    [apply same_guard_refl|].
  unfold queue_effect, nowPlaying_effect, playlistInfo_effect, polling_cleanup.
  unfold same_guard. destruct v, (isAuthenticated p); simpl;
    rewrite ?List.filter_app; simpl; rewrite ?app_nil_r; by repeat split.
Qed.

Lemma same_guard_handleSearch u q p : same_guard u p (handleSearch q p).
Proof.
  unfold handleSearch. destruct (is_blank q); [by repeat split|].
  by apply same_guard_send.
Qed.

Lemma same_guard_run_timer u cb p :
  (forall d, deleting u (d, cb) = false) ->
  same_guard u p (run_timer cb p).
Proof.
  intros Hcb. destruct cb as [v|q]; simpl.
  - specialize (Hcb 0). unfold deleting in Hcb. simpl in Hcb.
    apply bool_decide_eq_false in Hcb.
    unfold same_guard. simpl. repeat split; try done; set_solver.
  - destruct (String.eqb q ""); [apply same_guard_refl|].
    apply same_guard_handleSearch.
Qed.

(** What firing a batch of timers does to the guard entry of [u]. *)
Lemma fire_timers u (due : list (Z * TimerCb)) : forall p,
  let q := foldl (fun q x => run_timer x.2 q) p due in
  timers q = timers p /\
  clock q = clock p /\
  List.filter (adding u) (awaiting q) = List.filter (adding u) (awaiting p) /\
  (u ∈ addingRef q <->
     u ∈ addingRef p /\ List.filter (deleting u) due = []).
Proof.
  induction due as [|[d cb] due IH]; intros p; simpl.
  - split_and!; try done. naive_solver.
  - destruct (IH (run_timer cb p)) as (Ht & Hc & Ha & Hin).
    rewrite Ht, Hc, Ha, Hin. clear IH Ht Hc Ha Hin.
    destruct cb as [v|s]; simpl.
    + unfold deleting at 2. simpl. case_bool_decide as Hv.
      * subst v. split_and!; try done. set_solver.
      * split_and!; try done. set_solver.
    + unfold deleting at 2. simpl.
      destruct (String.eqb s ""); [done|].
      unfold handleSearch. destruct (is_blank s); simpl; [done|].
      rewrite List.filter_app. simpl. by rewrite app_nil_r.
Qed.

Lemma addTrack_guarded t p : uri t ∈ addingRef p -> addTrack t p = p.
Proof. intros Hin. unfold addTrack. by rewrite bool_decide_eq_true_2. Qed.

Lemma addTrack_same_guard u t p :
  uri t <> u -> same_guard u p (addTrack t p).
Proof.
  intros Hu. unfold addTrack. case_bool_decide; [apply same_guard_refl|].
  unfold same_guard. simpl. rewrite List.filter_app. simpl.
  rewrite bool_decide_eq_false_2 by done. rewrite app_nil_r.
  split_and!; try done. set_solver.
Qed.

Lemma addTrack_settled_timers u t o p :
  List.filter (deleting u) (timers (addTrack_settled t o p)) =
    List.filter (deleting u) (timers p) ++
    (if bool_decide (uri t = u) then [(clock p + 2000, DeleteAdding (uri t))]
     else []).
Proof.
  unfold addTrack_settled, setTimeout. simpl. rewrite List.filter_app.
  simpl. unfold deleting at 2. simpl. f_equal.
  - destruct o as [pos|d]; simpl; [|done].
    pose proof (same_guard_setSearchQuery u ""
      (set_successData
         (Some {| trackName := name t; sd_artist := artist t;
                  position := default 0 pos |}) p)) as (_ & _ & H & _).
    exact H.
  - destruct o as [pos|d]; simpl; [|done].
    pose proof (same_guard_setSearchQuery u ""
      (set_successData
         (Some {| trackName := name t; sd_artist := artist t;
                  position := default 0 pos |}) p)) as (_ & _ & _ & H).
    simpl in H. by rewrite H.
Qed.

Lemma addTrack_settled_rest t o p :
  addingRef (addTrack_settled t o p) = addingRef p /\
  awaiting (addTrack_settled t o p) = awaiting p /\
  clock (addTrack_settled t o p) = clock p.
Proof.
  unfold addTrack_settled, setTimeout.
  destruct o as [pos|d]; simpl; [|done].
  unfold setSearchQuery. by destruct (String.eqb _ _).
Qed.

Lemma addTrack_settled_same_guard u t o p :
  uri t <> u -> same_guard u p (addTrack_settled t o p).
Proof.
  intros Hu. destruct (addTrack_settled_rest t o p) as (Hr & Ha & Hc).
  unfold same_guard. rewrite Hr, Ha, Hc, addTrack_settled_timers.
  rewrite bool_decide_eq_false_2 by done. by rewrite app_nil_r.
Qed.

Lemma take_filter (f g : Awaited -> bool) l k rest :
  take f l = Some (k, rest) ->
  length (List.filter g l) =
    (length (List.filter g rest) + (if g k then 1 else 0))%nat.
Proof.
  intros (_ & l1 & l2 & -> & ->)%take_Some.
  rewrite !List.filter_app. simpl. destruct (g k); simpl;
    rewrite !length_app; simpl; lia.
Qed.

Lemma take_filter_other (f g : Awaited -> bool) l k rest :
  take f l = Some (k, rest) -> g k = false ->
  List.filter g rest = List.filter g l.
Proof.
  intros (_ & l1 & l2 & -> & ->)%take_Some Hk.
  rewrite !List.filter_app. simpl. by rewrite Hk.
Qed.

(** A response that is not the answer to an add-track post for [u]
    leaves the guard entry of [u] alone. *)
Lemma respond_same_guard u r p :
  (forall o, r <> AddTrackResponse u o) -> same_guard u p (respond r p).
Proof.
  intros Hr. unfold respond.
  destruct (take (answers r) (awaiting p)) as [[k rest]|] eqn:Htake;
    [|apply same_guard_refl].
  pose proof Htake as (Hk & _)%take_Some.
  assert (adding u k = false) as Hadd.
  { destruct r, k; simpl in *; try done.
    apply bool_decide_eq_true in Hk. apply bool_decide_eq_false.
    intros Heq. rewrite Heq in Hk. subst. by eapply Hr. }
  eapply same_guard_trans with (q := set_awaiting rest p).
  { unfold same_guard. simpl.
    by rewrite (take_filter_other _ _ _ _ _ Htake Hadd). }
  destruct r as [o|o|o|o|o|v o]; simpl.
  - destruct o; [apply same_guard_setIsAuthenticated|by repeat split].
  - destruct o; by repeat split.
  - destruct o; by repeat split.
  - destruct o; by repeat split.
  - destruct o; by repeat split.
  - destruct k; try apply same_guard_refl.
    apply addTrack_settled_same_guard.
    simpl in Hadd. by apply bool_decide_eq_false in Hadd.
Qed.

Lemma click_cases i p :
  click i p = p \/ exists t, click i p = addTrack t p.
Proof.
  unfold click. destruct (isAuthenticated p); [|by left].
  destruct (searchResults p !! i) as [t|]; [|by left].
  destruct (row_disabled _); [by left|]. right. by exists (s_track t).
Qed.

Lemma consistent_same_guard u p q :
  same_guard u p q ->
  in_progress u p = (if bool_decide (u ∈ addingRef p) then 1 else 0)%nat ->
  in_progress u q = (if bool_decide (u ∈ addingRef q) then 1 else 0)%nat.
Proof.
  intros (Hin & Ha & Ht & _) Hp. unfold in_progress in *.
  rewrite Ha, Ht, Hp. by rewrite (bool_decide_ext _ _ Hin).
Qed.

Lemma tick_guard u t p :
  ~ t < clock p ->
  List.filter (deleting u) (timers (tick t p)) =
    List.filter (fun x => negb (is_due t x)) (List.filter (deleting u) (timers p)) /\
  List.filter (adding u) (awaiting (tick t p)) =
    List.filter (adding u) (awaiting p) /\
  clock (tick t p) = t /\
  (u ∈ addingRef (tick t p) <->
     u ∈ addingRef p /\
     List.filter (is_due t) (List.filter (deleting u) (timers p)) = []).
Proof.
  intros Ht. unfold tick. rewrite bool_decide_eq_false_2 by done.
  match goal with
  | |- context [foldl ?f ?q ?l] =>
      destruct (fire_timers u l q) as (Htm & Hc & Ha & Hin)
  end.
  rewrite Htm, Hc, Ha, Hin. simpl.
  rewrite (filter_filter_comm (is_due t)).
  split_and!; try done. apply filter_filter_comm.
Qed.

(** The bookkeeping of [addingRef] is an invariant of the event loop. *)
Lemma guard_consistent_step p e :
  guard_consistent p -> guard_consistent (step p e).
Proof.
  intros Hp u. specialize (Hp u).
  destruct e as [r|q|i|cb|t]; simpl.
  - assert ((exists o, r = AddTrackResponse u o) \/
            (forall o, r <> AddTrackResponse u o)) as [[o ->]|Hr].
    { destruct r as [o|o|o|o|o|v o]; try by right.
      destruct (decide (v = u)) as [->|Hne]; [left; by exists o|].
      right. by intros o' [= ? ?]. }
    + unfold respond.
      destruct (take _ (awaiting p)) as [[k rest]|] eqn:Htake; [|done].
      pose proof (take_filter _ (adding u) _ _ _ Htake) as Hlen.
      apply take_Some in Htake as (Hk & _).
      destruct k as [| | | | |t]; try done. simpl in Hk, Hlen.
      cbn [continue]. rewrite Hk in Hlen. apply bool_decide_eq_true in Hk.
      destruct (addTrack_settled_rest t o (set_awaiting rest p))
        as (Href & Haw & _).
      unfold in_progress in *.
      rewrite addTrack_settled_timers, Href, Haw, length_app.
      rewrite (bool_decide_eq_true_2 (uri t = u)) by done. simpl.
      destruct (bool_decide (u ∈ addingRef p)); lia.
    + eapply consistent_same_guard; [|done].
      by apply respond_same_guard.
  - destruct (isAuthenticated p); [|done].
    eapply consistent_same_guard; [|done]. apply same_guard_setSearchQuery.
  - destruct (click_cases i p) as [->|[t ->]]; [done|].
    destruct (decide (uri t = u)) as [<-|Hne].
    + destruct (decide (uri t ∈ addingRef p)) as [Hin|Hin];
        [by rewrite addTrack_guarded|].
      rewrite bool_decide_eq_false_2 in Hp by done.
      unfold addTrack. rewrite (bool_decide_eq_false_2 _ Hin).
      unfold in_progress in *. simpl. rewrite List.filter_app, length_app.
      simpl. rewrite !bool_decide_eq_true_2 by set_solver. simpl. lia.
    + eapply consistent_same_guard; [|done]. by apply addTrack_same_guard.
  - destruct (bool_decide (cb ∈ (intervals p).*1)); [|done].
    eapply consistent_same_guard; [|done].
    destruct cb; by apply same_guard_send.
  - destruct (decide (t < clock p)) as [Hlt|Hge].
    { unfold tick. by rewrite bool_decide_eq_true_2. }
    destruct (tick_guard u t p Hge) as (Htm & Ha & _ & Hin).
    unfold in_progress in *. rewrite Htm, Ha.
    rewrite (filter_length_split (deleting u) (is_due t)) in Hp.
    rewrite !(filter_filter_comm (deleting u)) in Hp.
    destruct (List.filter (is_due t) (List.filter (deleting u) (timers p)))
      as [|x due].
    + assert (u ∈ addingRef (tick t p) <-> u ∈ addingRef p) as Hin'
        by naive_solver.
      rewrite (bool_decide_ext _ _ Hin'). simpl in Hp. lia.
    + rewrite bool_decide_eq_false_2 by (rewrite Hin; naive_solver).
      simpl in Hp. destruct (bool_decide (u ∈ addingRef p)); lia.
Qed.

Lemma guard_consistent_mounted : guard_consistent mounted.
Proof. intros u. unfold in_progress. simpl. done. Qed.

Lemma guard_consistent_run evs : forall p,
  guard_consistent p -> guard_consistent (run p evs).
Proof.
  induction evs as [|e evs IH]; intros p Hp; simpl; [done|].
  by apply IH, guard_consistent_step.
Qed.

Lemma held_until_same_guard u d p q :
  same_guard u p q -> held_until u d p -> held_until u d q.
Proof.
  intros (Hin & Ha & Ht & Hc) (H1 & H2 & H3 & H4).
  unfold held_until. rewrite Hin, Ha, Ht, Hc. done.
Qed.

(** Until the clock reaches [d] nothing removes the entry. *)
Lemma held_until_step u d p e :
  held_until u d p -> before d e -> held_until u d (step p e).
Proof.
  intros Hp He. pose proof Hp as (Hin & Haw & Htm & Hclock).
  destruct e as [r|q|i|cb|t]; simpl.
  - assert ((exists o, r = AddTrackResponse u o) \/
            (forall o, r <> AddTrackResponse u o)) as [[o ->]|Hr].
    { destruct r as [o|o|o|o|o|v o]; try by right.
      destruct (decide (v = u)) as [->|Hne]; [left; by exists o|].
      right. by intros o' [= ? ?]. }
    + unfold respond.
      destruct (take _ (awaiting p)) as [[k rest]|] eqn:Htake; [|done].
      pose proof (take_filter _ (adding u) _ _ _ Htake) as Hlen.
      apply take_Some in Htake as (Hk & _).
      destruct k as [| | | | |t]; try done. simpl in Hk, Hlen.
      rewrite Haw, Hk in Hlen. simpl in Hlen. lia.
    + eapply held_until_same_guard; [|done]. by apply respond_same_guard.
  - destruct (isAuthenticated p); [|done].
    eapply held_until_same_guard; [|done]. apply same_guard_setSearchQuery.
  - destruct (click_cases i p) as [->|[t ->]]; [done|].
    destruct (decide (uri t = u)) as [<-|Hne].
    + by rewrite addTrack_guarded.
    + eapply held_until_same_guard; [|done]. by apply addTrack_same_guard.
  - destruct (bool_decide (cb ∈ (intervals p).*1)); [|done].
    eapply held_until_same_guard; [|done].
    destruct cb; by apply same_guard_send.
  - simpl in He. destruct (decide (t < clock p)) as [Hlt|Hge].
    { unfold tick. by rewrite bool_decide_eq_true_2. }
    destruct (tick_guard u t p Hge) as (Htm' & Ha & Hc & Hin').
    assert (is_due t (d, DeleteAdding u) = false) as Hdue
      by (apply bool_decide_eq_false; simpl; lia).
    unfold held_until. rewrite Htm', Ha, Hc, Hin', Htm. simpl.
    rewrite Hdue. simpl. split_and!; try done. lia.
Qed.

Lemma held_until_run u d evs : forall p,
  held_until u d p -> Forall (before d) evs -> held_until u d (run p evs).
Proof.
  induction evs as [|e evs IH]; intros p Hp Hevs; simpl; [done|].
  apply Forall_cons in Hevs as [He Hevs]. apply IH; [|done].
  by apply held_until_step.
Qed.

(** Once the clock reaches [d] the timer fires and the entry is gone. *)
Lemma held_until_release u d p t :
  held_until u d p -> d <= t -> u ∉ addingRef (tick t p).
Proof.
  intros (Hin & Haw & Htm & Hclock) Ht.
  destruct (tick_guard u t p) as (_ & _ & _ & Hin'); [lia|].
  rewrite Hin', Htm. simpl.
  assert (is_due t (d, DeleteAdding u) = true) as ->
    by (apply bool_decide_eq_true; simpl; lia).
  by intros [_ ?].
Qed.

(** A settling submission leaves its uri held for exactly 2000 ms. *)
Lemma settle_holds p t o :
  guard_consistent p ->
  AwAddTrack t ∈ awaiting p ->
  held_until (uri t) (clock p + 2000)
    (respond (AddTrackResponse (uri t) o) p).
Proof.
  intros Hp Ht. specialize (Hp (uri t)). unfold respond.
  destruct (take _ (awaiting p)) as [[k rest]|] eqn:Htake.
  - pose proof (take_filter _ (adding (uri t)) _ _ _ Htake) as Hlen.
    apply take_Some in Htake as (Hk & _).
    destruct k as [| | | | |t']; try done. simpl in Hk, Hlen.
    cbn [continue]. rewrite Hk in Hlen. apply bool_decide_eq_true in Hk.
    destruct (addTrack_settled_rest t' o (set_awaiting rest p))
      as (Href & Hawt & Hc).
    unfold in_progress in Hp.
    assert (uri t ∈ addingRef p) as Hin.
    { destruct (decide (uri t ∈ addingRef p)); [done|].
      rewrite bool_decide_eq_false_2 in Hp by done. lia. }
    rewrite bool_decide_eq_true_2 in Hp by done.
    unfold held_until.
    rewrite addTrack_settled_timers, Href, Hawt, Hc.
    rewrite (bool_decide_eq_true_2 (uri t' = uri t)) by done. simpl.
    assert (List.filter (adding (uri t)) rest = []) as ->
      by (apply length_zero_iff_nil; lia).
    assert (List.filter (deleting (uri t)) (timers p) = []) as ->
      by (apply length_zero_iff_nil; lia).
    rewrite Hk. split_and!; try done. lia.
  - apply take_None in Htake.
    assert (AwAddTrack t ∈ List.filter (answers (AddTrackResponse (uri t) o))
              (awaiting p)) as Hin.
    { apply list_elem_of_In, filter_In. split; [by apply list_elem_of_In|].
      simpl. by apply bool_decide_eq_true. }
    rewrite Htake in Hin. by apply elem_of_nil in Hin.
Qed.

Lemma addTrack_fresh t p :
  uri t ∉ addingRef p ->
  requests (addTrack t p) =
    requests p ++
    [PostTrack endpoints.addTrack (uri t) (name t) (artist t) (album_art t)] /\
  uri t ∈ addingRef (addTrack t p) /\
  addingTrack (addTrack t p) = Some (uri t).
Proof.
  intros Hin. unfold addTrack. rewrite bool_decide_eq_false_2 by done.
  simpl. split_and!; try done. set_solver.
Qed.

(** C3. When an add submission of track [t] settles, successfully or not,
    on a page reached from the mounted page, the uri stays in [addingRef]
    at the moment of completion and through every later event for as
    long as the clock is short of completion time + 2000 ms; the first
    clock advance to or past that time removes it, and a new [addTrack]
    call for the track then sends its request again. *)
Theorem guard_entry_removed_after_delay (evs0 : list Event) (t : TrackRef)
    (o : Outcome (option Z)) :
  let p := run mounted evs0 in
  let settled := step p (Respond (AddTrackResponse (uri t) o)) in
  let due := clock p + 2000 in
  AwAddTrack t ∈ awaiting p ->
  (forall evs,
     Forall (before due) evs -> uri t ∈ addingRef (run settled evs))
  /\
  (forall evs now,
     Forall (before due) evs -> due <= now ->
     let later := run settled (evs ++ [Tick now]) in
     (uri t ∉ addingRef later) /\
     requests (addTrack t later) =
       requests later ++
       [PostTrack endpoints.addTrack (uri t) (name t) (artist t)
          (album_art t)]).
Proof.
  intros p settled due Ht.
  assert (held_until (uri t) due settled) as Hheld.
  { apply settle_holds; [|done].
    apply guard_consistent_run, guard_consistent_mounted. }
  split.
  - intros evs Hevs. by destruct (held_until_run _ _ evs _ Hheld Hevs).
  - intros evs now Hevs Hnow later.
    assert (uri t ∉ addingRef later) as Hgone.
    { unfold later, run. rewrite foldl_app. simpl.
      eapply held_until_release; [|done]. by apply held_until_run. }
    split; [done|]. by apply addTrack_fresh.
Qed.

Lemma guard_entry_removed_after_delay_witness :
  let p := run mounted Samples.searching_and_adding in
  let settled :=
    step p (Respond (AddTrackResponse "spotify:track:A" (Failed None))) in
  clock p = 300 /\
  "spotify:track:A" ∈ addingRef (run settled [Tick 2299; Clicked 0]) /\
  "spotify:track:A" ∉ addingRef (run settled [Tick 2299; Clicked 0; Tick 2300]).
Proof.
  intros p settled.
  destruct (guard_entry_removed_after_delay Samples.searching_and_adding
              Samples.trackA (Failed None)) as [Hkept Hgone].
  { vm_compute. repeat constructor. }
  split; [reflexivity|]. split.
  - apply (Hkept [Tick 2299; Clicked 0]).
    repeat constructor; vm_compute; reflexivity.
  - apply (Hgone [Tick 2299; Clicked 0] 2300).
    + repeat constructor; vm_compute; reflexivity.
    + vm_compute. discriminate.
Defined.

(** C2. On the server, two submissions of one track (free or paid), the
    first accepted and the second within the guard window after it: the
    second fails with DuplicateInFlight, changes nothing, and the two
    calls have created exactly one entry.  On the client, an [addTrack]
    call for a uri that is in [addingRef] returns the page unchanged, so
    no request goes out; a call for a uri that is not sends exactly one
    add-track post and puts the uri in the set, so that an immediate
    second call sends nothing. *)
Theorem duplicate_submission_rejected :
  (forall cfg st (s1 s2 : Engine.Submission) pos,
     uri (Engine.what s2) = uri (Engine.what s1) ->
     Engine.at_time s2 - Engine.at_time s1 < Engine.guard_window cfg ->
     (Engine.submit cfg st s1).2 = inr pos ->
     Engine.submit cfg (Engine.submit cfg st s1).1 s2 =
       ((Engine.submit cfg st s1).1, inl Engine.DuplicateInFlight) /\
     Engine.accepted cfg st [s1; s2] = [Engine.entry_of s1])
  /\
  (forall t p, uri t ∈ addingRef p -> addTrack t p = p)
  /\
  (forall t p,
     uri t ∉ addingRef p ->
     requests (addTrack t p) =
       requests p ++
       [PostTrack endpoints.addTrack (uri t) (name t) (artist t)
          (album_art t)] /\
     addTrack t (addTrack t p) = addTrack t p /\
     requests (addTrack t (addTrack t p)) = requests (addTrack t p)).
Proof.
  split_and!.
  - intros cfg st s1 s2 pos Hu Hw Hacc.
    by apply (EngineFacts.submit_twice cfg st s1 s2 pos).
  - apply addTrack_guarded.
  - intros t p Hin. destruct (addTrack_fresh t p Hin) as (Hreq & Hset & _).
    split_and!; [done|..]; by rewrite (addTrack_guarded t (addTrack t p)).
Qed.

Lemma duplicate_submission_rejected_witness :
  (let s2 :=
     {| Engine.paid := true; Engine.what := Samples.trackA;
        Engine.who := None; Engine.at_time := 1999;
        Engine.outcome := Engine.Ack |} in
   Engine.submit Samples.cfg
     (Engine.submit Samples.cfg Engine.init Samples.free_A).1 s2 =
     ((Engine.submit Samples.cfg Engine.init Samples.free_A).1,
      inl Engine.DuplicateInFlight) /\
   Engine.accepted Samples.cfg Engine.init [Samples.free_A; s2] =
     [Engine.entry_of Samples.free_A]) /\
  (let p := run mounted Samples.searching_and_adding in
   addTrack Samples.trackA p = p) /\
  (requests (addTrack Samples.trackA mounted) =
     requests mounted ++
     [PostTrack endpoints.addTrack "spotify:track:A" "Alpha" "Ann" None]).
Proof.
  destruct duplicate_submission_rejected as (Hserver & Hheld & Hfresh).
  split_and!.
  - apply (Hserver Samples.cfg Engine.init Samples.free_A _ 1%nat);
      [reflexivity|reflexivity|vm_compute; reflexivity].
  - apply Hheld. vm_compute. set_solver.
  - apply Hfresh. vm_compute. set_solver.
Defined.

(** *** Waiting for the connection *)

Lemma idle_timers (l : list (Z * TimerCb)) : forall p,
  Forall (fun x => x.2 = DebouncedSearch "") l ->
  foldl (fun q x => run_timer x.2 q) p l = p.
Proof.
  induction l as [|x l IH]; intros p Hl; simpl; [done|].
  apply Forall_cons in Hl as [Hx Hl]. rewrite Hx. simpl. by apply IH.
Qed.

Lemma Forall_filter_List {A} (P : A -> Prop) (f : A -> bool) (l : list A) :
  Forall P l -> Forall P (List.filter f l).
Proof.
  induction 1 as [|x l Hx Hl IH]; simpl; [constructor|].
  destruct (f x); [by constructor|done].
Qed.

Lemma waiting_mounted : waiting mounted.
Proof.
  unfold waiting, mounted. simpl. split_and!; try done.
  - by repeat constructor.
  - by repeat constructor.
Qed.

Lemma waiting_step p e :
  waiting p -> never_authenticated e -> waiting (step p e).
Proof.
  intros (Hauth & Hint & Hreq & Haw & Htm) He.
  destruct e as [r|q|i|cb|t]; simpl.
  - unfold respond.
    destruct (take (answers r) (awaiting p)) as [[k rest]|] eqn:Htake;
      [|by repeat split].
    apply take_Some in Htake as (Hk & l1 & l2 & Hl & ->).
    rewrite Hl in Haw. apply Forall_app in Haw as [H1 H2].
    apply Forall_cons in H2 as [-> H2].
    assert (Forall (fun k => k = AwStatus) (l1 ++ l2)) as Hrest
      by (by apply Forall_app).
    destruct r as [o|o|o|o|o|u o]; try done.
    destruct o as [[|]|d]; simpl in *; [done|..].
    + unfold setIsAuthenticated. simpl. rewrite Hauth. simpl.
      by repeat split.
    + by repeat split.
  - rewrite Hauth. by repeat split.
  - unfold click. rewrite Hauth. by repeat split.
  - rewrite Hint. rewrite bool_decide_eq_false_2 by apply not_elem_of_nil.
    by repeat split.
  - unfold tick. case_bool_decide; [by repeat split|].
    rewrite idle_timers by (by apply Forall_filter_List).
    simpl. repeat split; try done. by apply Forall_filter_List.
Qed.

Lemma waiting_run evs : forall p,
  waiting p -> Forall never_authenticated evs -> waiting (run p evs).
Proof.
  induction evs as [|e evs IH]; intros p Hp Hevs; simpl; [done|].
  apply Forall_cons in Hevs as [He Hevs]. apply IH; [|done].
  by apply waiting_step.
Qed.

(** C9. As long as the status endpoint does not report a session
    (it answers [authenticated: false], fails, or has not answered),
    whatever else happens on the page: [isAuthenticated] stays false, the
    page renders the waiting-for-connection view, no polling interval
    exists, and the status request is the only request ever sent, so
    neither the now-playing nor the queue endpoint is read. *)
Theorem unauthenticated_page_waits (evs : list Event) :
  Forall never_authenticated evs ->
  isAuthenticated (run mounted evs) = false /\
  render (run mounted evs) = WaitingForConnection /\
  intervals (run mounted evs) = [] /\
  requests (run mounted evs) = [Get endpoints.checkAuth] /\
  (Get endpoints.getNowPlaying ∉ requests (run mounted evs)) /\
  (Get endpoints.getQueue ∉ requests (run mounted evs)).
Proof.
  intros Hevs.
  destruct (waiting_run evs mounted waiting_mounted Hevs)
    as (Hauth & Hint & Hreq & _ & _).
  split_and!; try done.
  - unfold render. by rewrite Hauth.
  - rewrite Hreq. intros Hin. apply list_elem_of_singleton in Hin. done.
  - rewrite Hreq. intros Hin. apply list_elem_of_singleton in Hin. done.
Qed.

Lemma unauthenticated_page_waits_witness :
  render (run mounted
            [Respond (StatusResponse (Resolved false));
             Tick 300; Typed "abba"; Clicked 0;
             IntervalFired FetchNowPlaying;
             Respond (NowPlayingResponse (Failed None))])
    = WaitingForConnection.
Proof.
  apply unauthenticated_page_waits. repeat constructor.
Defined.

(** For comparison, a reported session starts the reads and both polling
    intervals. *)
Lemma authenticated_page_polls :
  let p := run mounted [Respond (StatusResponse (Resolved true))] in
  requests p =
    [Get endpoints.checkAuth; Get endpoints.getPlaylistInfo;
     Get endpoints.getNowPlaying; Get endpoints.getQueue] /\
  intervals p = [(FetchNowPlaying, 2000); (FetchQueue, 3000)].
Proof. by split. Qed.

End GuestPageFacts.

(** ** The paid flow and the admin page *)

Module AppFacts.
Import App.

Section WithBackend.
Variable API : string.

(** Forgetting how the checkout ended. *)
Lemma settled_checkout k f b p :
  (forall q, f (set_checkout_paid b q) = set_checkout_paid b (f q)) ->
  settled k f (set_checkout_paid b p) = set_checkout_paid b (settled k f p).
Proof.
  intros Hf. unfold settled. simpl.
  destruct (settle_one k (awaiting p)); [|done]. by rewrite <- Hf.
Qed.

Lemma guest_step_checkout b p e :
  is_checkout e = false ->
  guest_step API (set_checkout_paid b p) e =
    set_checkout_paid b (guest_step API p e).
Proof.
  intros He. destruct e as [r|t|t|r|r|paid]; simpl; try done.
  - apply settled_checkout. intros q. by destruct r.
  - apply settled_checkout. intros q. by destruct r.
  - apply settled_checkout. intros q. by destruct r.
Qed.

Lemma guest_run_checkout evs : forall p,
  exists b,
    guest_run API p evs =
      set_checkout_paid b
        (guest_run API p (List.filter (fun e => negb (is_checkout e)) evs)).
Proof.
  induction evs as [|e evs IH] using rev_ind; intros p.
  - exists (checkout_paid p). by destruct p.
  - unfold guest_run in *. rewrite List.filter_app, !foldl_app. simpl.
    destruct (IH p) as [b ->].
    destruct (is_checkout e) eqn:He; simpl.
    + destruct e; try done. simpl. by exists paid.
    + exists b. by apply guest_step_checkout.
Qed.

(** C8. Both paid operations open the payment link and then post the
    priority request, whose path and body are fixed by the track alone.
    How the checkout in the other tab ends is not read: changing it
    before the call changes neither the request nor anything else the
    page does, and over a whole run of the page the requests sent are
    those of the same run with every checkout outcome erased. *)
Theorem paid_request_ignores_payment (t : TrackRef) (p : Guest) :
  (requests (skipQueue API t p) =
     requests p ++
     [PostTrack (API +:+ "/spotify/skip-paid") (uri t) (name t) (artist t)
        (album_art t)] /\
   requests (moveToNext API t p) =
     requests p ++
     [PostTrack (API +:+ "/spotify/move-to-next") (uri t) (name t) (artist t)
        (album_art t)] /\
   opened (skipQueue API t p) = opened p ++ [(squareLink p, "_blank")] /\
   opened (moveToNext API t p) = opened p ++ [(squareLink p, "_blank")])
  /\
  (forall paid paid',
     requests (skipQueue API t (set_checkout_paid paid p)) =
       requests (skipQueue API t (set_checkout_paid paid' p)) /\
     requests (moveToNext API t (set_checkout_paid paid p)) =
       requests (moveToNext API t (set_checkout_paid paid' p)))
  /\
  (forall evs,
     requests (guest_run API p evs) =
       requests
         (guest_run API p (List.filter (fun e => negb (is_checkout e)) evs))).
Proof.
  split_and!; try done.
  intros evs. by destruct (guest_run_checkout evs p) as [b ->].
Qed.

(** *** The admin page *)

Lemma trusted_step a e : trusted API a -> trusted API (admin_step API a e).
Proof.
  intros (Hauth & Hload & Haw & Hreq).
  destruct e as [r|r|  | |]; simpl.
  - by rewrite Haw.
  - destruct (reset_awaited a); [done|]. by destruct r.
  - unfold admin_render. by rewrite Hload, Hauth.
  - unfold admin_render. by rewrite Hload, Hauth.
  - unfold admin_render. rewrite Hload, Hauth.
    repeat split; try done. simpl. apply Forall_app. split; [done|].
    by repeat constructor.
Qed.

Lemma trusted_run evs : forall a,
  trusted API a -> trusted API (admin_run API a evs).
Proof.
  induction evs as [|e evs IH]; intros a Ha; simpl; [done|].
  by apply IH, trusted_step.
Qed.

(** C10. When the [auth] parameter of the query string is [success], the
    admin page sets [isAuthenticated] to true on mount without sending
    anything, and after any sequence of events it still shows the
    connected view and has never requested the status endpoint.  In every
    other case (no [auth] parameter, or another value) mounting sends the
    status request, the page shows the loading view, and the displayed
    state is what the status endpoint answers. *)
Theorem admin_auth_param (params : list (string * string)) :
  (URLSearchParams_get "auth" params = Some "success" ->
   admin_requests (admin_mount API params) = [] /\
   forall evs,
     isAuthenticated (admin_run API (admin_mount API params) evs) = true /\
     admin_render (admin_run API (admin_mount API params) evs) = Connected /\
     (Get (API +:+ "/spotify/status")
        ∉ admin_requests (admin_run API (admin_mount API params) evs)))
  /\
  (URLSearchParams_get "auth" params <> Some "success" ->
   admin_requests (admin_mount API params) =
     [Get (API +:+ "/spotify/status")] /\
   admin_render (admin_mount API params) = Loading /\
   forall authenticated,
     isAuthenticated
       (admin_step API (admin_mount API params)
          (StatusSettled (Resolved authenticated))) = authenticated /\
     admin_render
       (admin_step API (admin_mount API params)
          (StatusSettled (Resolved authenticated))) =
       (if authenticated then Connected else ConnectPrompt)).
Proof.
  unfold admin_mount. split; intros Hget.
  - rewrite bool_decide_eq_true_2 by done. split; [done|]. intros evs.
    assert (trusted API (setLoading false (setIsAuthenticated true admin_initial)))
      as Hinit by (by repeat split).
    destruct (trusted_run evs _ Hinit) as (Hauth & Hload & _ & Hreq).
    split_and!; [done| |].
    + unfold admin_render. by rewrite Hload, Hauth.
    + intros Hin. eapply Forall_forall in Hreq; [|exact Hin]. done.
  - rewrite bool_decide_eq_false_2 by done. split_and!; try done.
Qed.

End WithBackend.

Lemma admin_auth_param_witness :
  (admin_render
     (admin_run "https://dj.example/api"
        (admin_mount "https://dj.example/api" [("auth", "success")])
        [ClickReset; ResetSettled (Resolved ()); StatusSettled (Resolved false)])
     = Connected) /\
  admin_requests (admin_mount "https://dj.example/api" [("auth", "denied")]) =
    [Get "https://dj.example/api/spotify/status"] /\
  admin_requests (admin_mount "https://dj.example/api" []) =
    [Get "https://dj.example/api/spotify/status"].
Proof.
  split_and!.
  - destruct (admin_auth_param "https://dj.example/api" [("auth", "success")]) as [H _].
    destruct H as [_ H]; [reflexivity|].
    apply (H [ClickReset; ResetSettled (Resolved ());
              StatusSettled (Resolved false)]).
  - destruct (admin_auth_param "https://dj.example/api" [("auth", "denied")]) as [_ H].
    destruct H as [H _]; [vm_compute; discriminate|]. exact H.
  - destruct (admin_auth_param "https://dj.example/api" []) as [_ H].
    destruct H as [H _]; [vm_compute; discriminate|]. exact H.
Defined.

End AppFacts.

(** ** Display helpers and the success overlay *)

Module DisplayFacts.
Import Display.

Lemma two_digits (s : Z) :
  0 <= s < 60 -> String.length (padStart 2 "0"%char (pretty s)) = 2%nat.
Proof.
  intros Hs.
  assert (exists n : nat, (n < 60)%nat /\ s = Z.of_nat n) as (n & Hn & ->).
  { exists (Z.to_nat s). split; lia. }
  clear Hs.
  do 60 (destruct n as [|n]; [vm_compute; reflexivity|]). lia.
Qed.

(** X1. For a positive number of milliseconds below 2^53 [formatTime]
    prints the whole minutes (never folded into hours), a colon, and the
    seconds within the minute on exactly two characters; minutes and
    seconds recombine to the whole seconds of the input.  A missing or
    zero value prints "0:00". *)
Theorem formatTime_minutes_seconds (ms : Z) :
  0 < ms ->
  ms < 2 ^ 53 ->
  exists mins secs,
    formatTime (Some ms) =
      pretty mins +:+ ":" +:+ padStart 2 "0"%char (pretty secs) /\
    0 <= secs < 60 /\
    mins * 60 + secs = ms / 1000 /\
    String.length (padStart 2 "0"%char (pretty secs)) = 2%nat /\
    formatTime None = "0:00" /\ formatTime (Some 0) = "0:00".
Proof.
  intros Hms _. exists (ms / 1000 / 60), (Z.rem (ms / 1000) 60).
  assert (0 <= ms / 1000) as Hsec by (apply Z.div_pos; lia).
  assert (Z.rem (ms / 1000) 60 = (ms / 1000) mod 60) as Hrem
    by (apply Z.rem_mod_nonneg; lia).
  assert (0 <= (ms / 1000) mod 60 < 60) as Hbound
    by (apply Z.mod_pos_bound; lia).
  split_and!; try done.
  - unfold formatTime. by rewrite (proj2 (Z.eqb_neq ms 0)) by lia.
  - lia.
  - lia.
  - rewrite Hrem. pose proof (Z.div_mod (ms / 1000) 60). lia.
  - apply two_digits. lia.
Qed.

Lemma formatTime_minutes_seconds_witness :
  formatTime (Some 3725999) = "62:05" /\ formatTime (Some 999) = "0:00".
Proof.
  destruct (formatTime_minutes_seconds 3725999) as (m & s & H & _);
    [reflexivity|reflexivity|].
  split; reflexivity.
Defined.

End DisplayFacts.

Module SuccessOverlayFacts.
Import SuccessOverlay.

Lemma shown_until_step (d : Z) (h : Host) (e : Event) :
  isVisible h = true -> dismiss_at h = Some d -> clock h <= d ->
  before d e ->
  isVisible (step h e) = true /\ dismiss_at (step h e) = Some d /\
  clock (step h e) <= d /\
  successData (step h e) =
    match e with Succeeded x => Some x | Tick _ => successData h end.
Proof.
  intros Hvis Hd Hc He. destruct e as [x|t]; simpl.
  - unfold setSuccessData. rewrite Hvis. simpl. by rewrite Hd.
  - simpl in He. unfold tick. case_bool_decide; [done|].
    rewrite Hd. rewrite bool_decide_eq_false_2 by lia. simpl.
    split_and!; try done. lia.
Qed.

Lemma shown_until_run (d : Z) (evs : list Event) : forall h,
  isVisible h = true -> dismiss_at h = Some d -> clock h <= d ->
  Forall (before d) evs ->
  isVisible (run h evs) = true /\ dismiss_at (run h evs) = Some d /\
  clock (run h evs) <= d /\
  successData (run h evs) =
    foldl (fun acc e => match e with Succeeded x => Some x | Tick _ => acc end)
          (successData h) evs.
Proof.
  induction evs as [|e evs IH]; intros h Hvis Hd Hc Hevs; simpl; [done|].
  apply Forall_cons in Hevs as [He Hevs].
  destruct (shown_until_step d h e Hvis Hd Hc He) as (Hv & Hd' & Hc' & Hs).
  destruct (IH _ Hv Hd' Hc' Hevs) as (? & ? & ? & Hdata).
  split_and!; try done. rewrite Hdata, Hs. by destruct e.
Qed.

(** X2. The overlay is dismissed 3000 ms after it became visible, and a
    further success while it is visible does not restart the timer: from
    a hidden overlay at time [now], after a first success and any
    successes and clock advances short of [now + 3000], the overlay shows
    the data of the latest success and its timer is still due at
    [now + 3000]; the first clock advance to or past that time hides it. *)
Theorem overlay_dismissed_after_first_success (now : Z)
    (d1 : GuestPage.SuccessData) (evs : list Event) (t : Z) :
  Forall (before (now + 3000)) evs ->
  now + 3000 <= t ->
  let h := run (hidden now) (Succeeded d1 :: evs) in
  successData h = last_success (Succeeded d1 :: evs) /\
  isVisible h = true /\
  dismiss_at h = Some (now + 3000) /\
  render (step h (Tick t)) = Nothing /\
  dismiss_at (step h (Tick t)) = None.
Proof.
  intros Hevs Ht h.
  destruct (shown_until_run (now + 3000) evs
              (setSuccessData (Some d1) (hidden now)))
    as (Hvis & Hd & Hc & Hdata); [done|done|simpl; lia|done|].
  fold (run (hidden now) (Succeeded d1 :: evs)) in *.
  change (run (setSuccessData (Some d1) (hidden now)) evs) with h in *.
  split_and!; try done.
  - simpl. unfold tick. rewrite bool_decide_eq_false_2 by lia.
    rewrite Hd. rewrite bool_decide_eq_true_2 by lia.
    unfold handleSuccessComplete, setSuccessData, render. simpl.
    by destruct (isVisible _).
  - simpl. unfold tick. rewrite bool_decide_eq_false_2 by lia.
    rewrite Hd. rewrite bool_decide_eq_true_2 by lia.
    unfold handleSuccessComplete, setSuccessData. simpl.
    by destruct (isVisible _).
Qed.

Lemma overlay_dismissed_after_first_success_witness :
  let first := GuestPage.mkSuccessData "Alpha" "Ann" 3 in
  let second := GuestPage.mkSuccessData "Beta" "Bob" 0 in
  let h := run (hidden 0) [Succeeded first; Tick 2500; Succeeded second] in
  render h = Added "Beta" "Bob" None /\
  render (step h (Tick 3000)) = Nothing.
Proof.
  intros first second h.
  destruct (overlay_dismissed_after_first_success 0 first
              [Tick 2500; Succeeded second] 3000) as (_ & _ & _ & Hgone & _).
  - repeat constructor.
  - vm_compute. discriminate.
  - split; [reflexivity|exact Hgone].
Defined.

End SuccessOverlayFacts.

(** ** More on the paid flow and the admin page *)

Module AppMoreFacts.
Import App AppAux.

Section WithBackend.
Variable API : string.

Lemma settled_frame k (f : Guest -> Guest) p :
  (forall q, opened (f q) = opened q /\ requests (f q) = requests q) ->
  opened (settled k f p) = opened p /\
  requests (settled k f p) = requests p.
Proof.
  intros Hf. unfold settled. destruct (settle_one k (awaiting p)); [|done].
  destruct (Hf (mkGuest (squareLink p) (searchQuery p) (searchResults p)
                  (opened p) (requests p) l (toasts p) (console p)
                  (checkout_paid p))) as (H2 & H3).
  by rewrite H2, H3.
Qed.

Lemma settled_link k (f : Guest -> Guest) p :
  (forall q, squareLink (f q) = squareLink q) ->
  squareLink (settled k f p) = squareLink p.
Proof.
  intros Hf. unfold settled. destruct (settle_one k (awaiting p)); [|done].
  by rewrite Hf.
Qed.

Lemma guest_step_counts p e :
  (length (List.filter (is_priority_post API) (requests (guest_step API p e)))
   + length (opened p) =
   length (List.filter (is_priority_post API) (requests p))
   + length (opened (guest_step API p e)))%nat /\
  (config_loaded e = false ->
   squareLink (guest_step API p e) = squareLink p) /\
  (forall w, w ∈ opened (guest_step API p e) ->
     w ∈ opened p \/ w = (squareLink p, "_blank")).
Proof.
  destruct e as [r|t|t|r|r|paid]; simpl.
  - destruct (settled_frame AwConfig (fetchConfig_settled r) p) as (H2 & H3).
    { intros q. by destruct r. }
    rewrite H2, H3. split_and!; try done; try lia; [|by left].
    intros Hr. apply settled_link. intros q. by destruct r.
  - rewrite List.filter_app, !length_app. simpl.
    rewrite String.eqb_refl. simpl. split_and!; try done; try lia.
    intros w Hw. apply elem_of_app in Hw as [Hw|Hw]; [by left|].
    right. by apply list_elem_of_singleton in Hw.
  - rewrite List.filter_app, !length_app. simpl.
    rewrite String.eqb_refl, orb_true_r. simpl.
    split_and!; try done; try lia.
    intros w Hw. apply elem_of_app in Hw as [Hw|Hw]; [by left|].
    right. by apply list_elem_of_singleton in Hw.
  - destruct (settled_frame AwSkipPaid (skipQueue_settled r) p) as (H2 & H3).
    { intros q. by destruct r. }
    rewrite H2, H3. split_and!; try done; try lia; [|by left].
    intros _. apply settled_link. intros q. by destruct r.
  - destruct (settled_frame AwMoveToNext (moveToNext_settled r) p)
      as (H2 & H3).
    { intros q. by destruct r. }
    rewrite H2, H3. split_and!; try done; try lia; [|by left].
    intros _. apply settled_link. intros q. by destruct r.
  - split_and!; try done; try lia. by left.
Qed.

Lemma guest_run_counts evs : forall p,
  (length (List.filter (is_priority_post API) (requests (guest_run API p evs)))
   + length (opened p) =
   length (List.filter (is_priority_post API) (requests p))
   + length (opened (guest_run API p evs)))%nat /\
  (forallb (fun e => negb (config_loaded e)) evs = true ->
   squareLink (guest_run API p evs) = squareLink p /\
   forall w, w ∈ opened (guest_run API p evs) ->
     w ∈ opened p \/ w = (squareLink p, "_blank")).
Proof.
  induction evs as [|e evs IH]; intros p; simpl.
  - split_and!; try done; try lia. intros _. split; [done|]. by left.
  - destruct (guest_step_counts p e) as (Hn & Hlink & Hwin).
    destruct (IH (guest_step API p e)) as (Hn' & Hrest).
    split_and!; [lia|].
    intros [He Hevs]%andb_true_iff. apply negb_true_iff in He.
    destruct (Hrest Hevs) as (Hlink' & Hwin').
    rewrite Hlink in Hlink', Hwin' by done. split; [done|].
    intros w Hw. destruct (Hwin' w Hw) as [Hold | ->]; [|by right].
    by apply Hwin.
Qed.

(** X3. On the guest page of App.js each call of [skipQueue] or
    [moveToNext] opens one window and sends one priority request (to
    /spotify/skip-paid or /spotify/move-to-next), and settling requests
    or the checkout ending does neither (nor does any other handler of
    the page: [window.open] and the two paths occur in these two
    functions only): after any run of the configuration read, the paid
    handlers and their continuations, the priority requests sent are as
    many as the windows opened.  As long
    as the configuration has not arrived, [squareLink] is still the
    empty string, so every window was opened on the empty URL, while the
    priority requests went out all the same. *)
Theorem paid_click_opens_and_posts (evs : list GuestEvent) :
  let p := guest_run API (fetchConfig API guest_initial) evs in
  length (List.filter (is_priority_post API) (requests p)) =
    length (opened p) /\
  (forallb (fun e => negb (config_loaded e)) evs = true ->
   squareLink p = "" /\
   Forall (fun w => w = ("", "_blank")) (opened p)).
Proof.
  intros p.
  destruct (guest_run_counts evs (fetchConfig API guest_initial))
    as (Hn & Hrest).
  simpl in Hn. split; [unfold p; lia|].
  intros Hevs. destruct (Hrest Hevs) as (Hlink & Hwin).
  split; [done|]. apply Forall_forall. intros w Hw.
  destruct (Hwin w Hw) as [Hold | ->]; [|done].
  simpl in Hold. by apply elem_of_nil in Hold.
Qed.

(** The admin page: loading exactly while the status answer is
    awaited. *)
Lemma admin_loading_step a e :
  loading a = status_awaited a ->
  loading (admin_step API a e) = status_awaited (admin_step API a e).
Proof.
  intros Hl. destruct e as [r|r| | |]; simpl.
  - destruct (status_awaited a) eqn:Haw; [|congruence]. by destruct r.
  - destruct (reset_awaited a); [done|]. by destruct r.
  - by destruct (admin_render a).
  - by destruct (admin_render a).
  - by destruct (admin_render a).
Qed.

Lemma admin_loading_run evs : forall a,
  loading a = status_awaited a ->
  loading (admin_run API a evs) = status_awaited (admin_run API a evs).
Proof.
  induction evs as [|e evs IH]; intros a Ha; simpl; [done|].
  by apply IH, admin_loading_step.
Qed.

Lemma admin_mount_loading params :
  loading (admin_mount API params) = status_awaited (admin_mount API params).
Proof. unfold admin_mount. by case_bool_decide. Qed.

Lemma refused_step a e :
  refused API a -> refused API (admin_step API a e).
Proof.
  intros (Hauth & Hload & Haw & Hreq).
  destruct e as [r|r| | |]; simpl.
  - by rewrite Haw.
  - destruct (reset_awaited a); [done|]. by destruct r.
  - unfold admin_render. by rewrite Hload, Hauth.
  - unfold admin_render. by rewrite Hload, Hauth.
  - unfold admin_render. by rewrite Hload, Hauth.
Qed.

Lemma refused_run evs : forall a,
  refused API a -> refused API (admin_run API a evs).
Proof.
  induction evs as [|e evs IH]; intros a Ha; simpl; [done|].
  by apply IH, refused_step.
Qed.

(** X4. The admin page shows the loading view exactly while the status
    answer is awaited.  When the URL does not say [auth=success] and the
    status check fails or reports no session, the page is on the connect
    prompt from then on, whatever is clicked, and the status request
    stays the only request it ever sent: the reset button is out of
    reach. *)
Theorem admin_failed_status_shows_prompt (params : list (string * string))
    (r : Outcome bool) (evs : list AdminEvent) :
  URLSearchParams_get "auth" params <> Some "success" ->
  r <> Resolved true ->
  let a := admin_run API (admin_mount API params) (StatusSettled r :: evs) in
  admin_render a = ConnectPrompt /\
  admin_requests a = [Get (API +:+ "/spotify/status")] /\
  (forall evs',
     loading (admin_run API (admin_mount API params) evs') =
     status_awaited (admin_run API (admin_mount API params) evs')).
Proof.
  intros Hget Hr a.
  assert (refused API (admin_step API (admin_mount API params) (StatusSettled r)))
    as Href.
  { unfold admin_mount. rewrite bool_decide_eq_false_2 by done.
    destruct r as [[|]|d]; by try done. }
  destruct (refused_run evs _ Href) as (Hauth & Hload & _ & Hreq).
  change a with
    (admin_run API
       (admin_step API (admin_mount API params) (StatusSettled r)) evs).
  split_and!.
  - unfold admin_render. by rewrite Hload, Hauth.
  - done.
  - intros evs'. apply admin_loading_run, admin_mount_loading.
Qed.

Lemma reset_toast_step a e :
  (length (admin_toasts a) + reset_awaited a =
   length (List.filter (is_reset_post API) (admin_requests a)))%nat ->
  (length (admin_toasts (admin_step API a e)) +
   reset_awaited (admin_step API a e) =
   length (List.filter (is_reset_post API)
             (admin_requests (admin_step API a e))))%nat.
Proof.
  intros Ha. destruct e as [r|r| | |]; cbn [admin_step].
  - destruct (status_awaited a); [|done]. by destruct r.
  - destruct (reset_awaited a) as [|n] eqn:Hn; [by rewrite Hn|].
    destruct r; cbn; rewrite length_app; cbn; lia.
  - by destruct (admin_render a).
  - by destruct (admin_render a).
  - destruct (admin_render a); try done. cbn.
    rewrite List.filter_app, !length_app. cbn.
    rewrite String.eqb_refl. cbn. lia.
Qed.

Lemma reset_toast_run evs : forall a,
  (length (admin_toasts a) + reset_awaited a =
   length (List.filter (is_reset_post API) (admin_requests a)))%nat ->
  (length (admin_toasts (admin_run API a evs)) +
   reset_awaited (admin_run API a evs) =
   length (List.filter (is_reset_post API)
             (admin_requests (admin_run API a evs))))%nat.
Proof.
  induction evs as [|e evs IH]; intros a Ha; simpl; [done|].
  by apply IH, reset_toast_step.
Qed.

(** X5. On the admin page, in every run: a click on the reset button in
    the connected view sends exactly one bare POST to
    /admin/reset-queue-state and awaits its answer, and in any other
    view there is no button and nothing happens; the answer to an
    awaited reset shows exactly one toast, "Queue state reset!" when it
    resolved and "Failed to reset queue state" when it was rejected; and
    at any moment the toasts shown plus the resets still awaited equal
    the reset requests sent. *)
Theorem reset_toast_per_post (params : list (string * string))
    (evs : list AdminEvent) :
  let a := admin_run API (admin_mount API params) evs in
  (admin_render a = Connected ->
   admin_requests (admin_step API a ClickReset) =
     admin_requests a ++ [Post (API +:+ "/admin/reset-queue-state")] /\
   reset_awaited (admin_step API a ClickReset) = S (reset_awaited a) /\
   admin_toasts (admin_step API a ClickReset) = admin_toasts a)
  /\
  (admin_render a <> Connected -> admin_step API a ClickReset = a)
  /\
  (forall r,
     (0 < reset_awaited a)%nat ->
     admin_toasts (admin_step API a (ResetSettled r)) =
       admin_toasts a ++
       [match r with
        | Resolved _ => ToastSuccess "Queue state reset!"
        | Failed _ => ToastError "Failed to reset queue state"
        end] /\
     reset_awaited (admin_step API a (ResetSettled r)) =
       Nat.pred (reset_awaited a) /\
     admin_requests (admin_step API a (ResetSettled r)) = admin_requests a)
  /\
  (length (admin_toasts a) + reset_awaited a =
   length (List.filter (is_reset_post API) (admin_requests a)))%nat.
Proof.
  intros a. split_and!.
  - intros Hview. simpl. by rewrite Hview.
  - intros Hview. simpl. by destruct (admin_render a).
  - intros r Haw. simpl. destruct (reset_awaited a) as [|n]; [lia|].
    by destruct r.
  - apply reset_toast_run. unfold admin_mount. by case_bool_decide.
Qed.

End WithBackend.

Lemma paid_click_opens_and_posts_witness :
  let p :=
    guest_run "https://dj.example/api"
      (fetchConfig "https://dj.example/api" guest_initial)
      [ConfigSettled (Failed None); ClickPlayNext Samples.trackA;
       CheckoutEnded false; ClickQueuePlayNext Samples.trackB] in
  opened p = [("", "_blank"); ("", "_blank")] /\
  length (List.filter (is_priority_post "https://dj.example/api")
            (requests p)) = 2%nat /\
  Forall (fun w => w = ("", "_blank")) (opened p).
Proof.
  intros p.
  destruct (paid_click_opens_and_posts "https://dj.example/api"
              [ConfigSettled (Failed None); ClickPlayNext Samples.trackA;
               CheckoutEnded false; ClickQueuePlayNext Samples.trackB])
    as [_ H].
  destruct H as [_ H]; [reflexivity|].
  split; [reflexivity|]. split; [reflexivity|exact H].
Defined.

Lemma reset_toast_per_post_witness :
  let API := "https://dj.example/api" in
  let a := admin_run API (admin_mount API [("auth", "success")]) [] in
  let clicked := admin_step API a ClickReset in
  admin_requests clicked = [Post "https://dj.example/api/admin/reset-queue-state"]
  /\ admin_toasts (admin_step API clicked (ResetSettled (Failed None))) =
       [ToastError "Failed to reset queue state"].
Proof.
  intros API a clicked. split.
  - destruct (reset_toast_per_post API [("auth", "success")] [])
      as (Hclick & _).
    destruct Hclick as (Hreq & _); [reflexivity|]. exact Hreq.
  - destruct (reset_toast_per_post API [("auth", "success")] [ClickReset])
      as (_ & _ & Hsettle & _).
    destruct (Hsettle (Failed None)) as (Htoast & _);
      [vm_compute; lia|]. exact Htoast.
Defined.

Lemma admin_failed_status_shows_prompt_witness :
  admin_render
    (admin_run "https://dj.example/api"
       (admin_mount "https://dj.example/api" [("auth", "denied")])
       [StatusSettled (Failed None); ClickReset; ClickConnect])
    = ConnectPrompt.
Proof.
  apply (admin_failed_status_shows_prompt "https://dj.example/api"
           [("auth", "denied")] (Failed None) [ClickReset; ClickConnect]).
  - vm_compute. discriminate.
  - discriminate.
Defined.

End AppMoreFacts.

(** ** More on the guest page *)

Module GuestPageMoreFacts.
Import GuestPage GuestPageAux GuestPageFacts.

(** X6. On every page reached from the mounted page, at most one
    add-track post per uri is awaiting its answer, and a uri is in
    [addingRef] exactly when one submission of it is under way (its post
    awaited or its deletion timer pending): the set never keeps a uri
    that nothing will remove. *)
Theorem single_submission_in_flight (evs : list Event) (u : string) :
  let p := run mounted evs in
  (length (List.filter (adding u) (awaiting p)) <= 1)%nat /\
  (u ∈ addingRef p <-> in_progress u p = 1%nat) /\
  (u ∉ addingRef p <-> in_progress u p = 0%nat).
Proof.
  intros p.
  pose proof (guard_consistent_run evs mounted guard_consistent_mounted u)
    as Hu.
  fold p in Hu. unfold in_progress in *.
  destruct (decide (u ∈ addingRef p)) as [Hin|Hin].
  - rewrite bool_decide_eq_true_2 in Hu by done.
    split_and!; [lia|naive_solver|]. split; [done|lia].
  - rewrite bool_decide_eq_false_2 in Hu by done.
    split_and!; [lia| |naive_solver]. split; [done|lia].
Qed.

(** *** What timers and steps leave alone *)

Lemma fold_frame {A} (f : Page -> A) (l : list (Z * TimerCb)) : forall p,
  (forall cb q, f (run_timer cb q) = f q) ->
  f (foldl (fun q x => run_timer x.2 q) p l) = f p.
Proof.
  induction l as [|x l IH]; intros p Hf; simpl; [done|].
  by rewrite IH, Hf.
Qed.

Lemma run_timer_frame cb q :
  toasts (run_timer cb q) = toasts q /\
  intervals (run_timer cb q) = intervals q /\
  isAuthenticated (run_timer cb q) = isAuthenticated q /\
  List.filter is_status (awaiting (run_timer cb q)) =
    List.filter is_status (awaiting q) /\
  requests (run_timer cb q) = requests q ++ timer_post (0, cb).
Proof.
  destruct cb as [u|s]; simpl.
  - by rewrite app_nil_r.
  - unfold timer_post, search_post, handleSearch. simpl.
    destruct (String.eqb s "") eqn:Hs.
    + apply String.eqb_eq in Hs as ->. simpl. by rewrite app_nil_r.
    + destruct (is_blank s); simpl; rewrite ?app_nil_r; try done.
      rewrite List.filter_app. simpl. by rewrite app_nil_r.
Qed.

Lemma tick_frame t p :
  toasts (tick t p) = toasts p /\
  intervals (tick t p) = intervals p /\
  isAuthenticated (tick t p) = isAuthenticated p /\
  List.filter is_status (awaiting (tick t p)) =
    List.filter is_status (awaiting p).
Proof.
  unfold tick. case_bool_decide; [done|].
  split_and!.
  - rewrite (fold_frame toasts); [done|]. intros. apply run_timer_frame.
  - rewrite (fold_frame intervals); [done|]. intros. apply run_timer_frame.
  - rewrite (fold_frame isAuthenticated); [done|].
    intros. apply run_timer_frame.
  - rewrite (fold_frame (fun q => List.filter is_status (awaiting q)));
      [done|]. intros. apply run_timer_frame.
Qed.

Lemma fire_requests (l : list (Z * TimerCb)) : forall p,
  requests (foldl (fun q x => run_timer x.2 q) p l) =
    requests p ++ flat_map timer_post l.
Proof.
  induction l as [|[d cb] l IH]; intros p; simpl.
  - by rewrite app_nil_r.
  - rewrite IH. destruct (run_timer_frame cb p) as (_ & _ & _ & _ & ->).
    by rewrite <- app_assoc.
Qed.

Lemma tick_requests t p :
  requests (tick t p) =
    requests p ++
    (if bool_decide (t < clock p) then []
     else flat_map timer_post (List.filter (is_due t) (timers p))).
Proof.
  unfold tick. case_bool_decide; [by rewrite app_nil_r|].
  by rewrite fire_requests.
Qed.

Lemma timer_post_follow_up (l : list (Z * TimerCb)) :
  Forall follow_up (flat_map timer_post l).
Proof.
  induction l as [|[d [u|q]] l IH]; simpl; [done|done|].
  apply Forall_app. split; [|done].
  unfold timer_post, search_post. simpl. destruct (is_blank q); by repeat constructor.
Qed.

Lemma setIsAuthenticated_requests v p :
  exists l, requests (setIsAuthenticated v p) = requests p ++ l /\
            Forall follow_up l.
Proof.
  unfold setIsAuthenticated, queue_effect, nowPlaying_effect,
    playlistInfo_effect, polling_cleanup.
  destruct v, (isAuthenticated p) eqn:Ha; simpl; rewrite ?Ha; simpl.
  - exists []. by rewrite app_nil_r.
  - exists [Get endpoints.getPlaylistInfo; Get endpoints.getNowPlaying;
            Get endpoints.getQueue].
    split; [by rewrite <- !app_assoc|].
    repeat (apply Forall_cons_2; [simpl; by auto|]). constructor.
  - exists []. by rewrite app_nil_r.
  - exists []. by rewrite app_nil_r.
Qed.

(** Every step only appends follow-up requests. *)
Lemma step_requests p e :
  exists l, requests (step p e) = requests p ++ l /\ Forall follow_up l.
Proof.
  destruct e as [r|q|i|cb|t]; simpl.
  - unfold respond.
    destruct (take (answers r) (awaiting p)) as [[k rest]|];
      [|exists []; by rewrite app_nil_r].
    destruct r as [o|o|o|o|o|u o]; simpl.
    + destruct o as [v|d]; simpl; [|exists []; by rewrite app_nil_r].
      apply (setIsAuthenticated_requests v (set_awaiting rest p)).
    + destruct o; exists []; by rewrite app_nil_r.
    + destruct o; exists []; by rewrite app_nil_r.
    + destruct o; exists []; by rewrite app_nil_r.
    + destruct o; exists []; by rewrite app_nil_r.
    + destruct k; try (exists []; by rewrite app_nil_r).
      exists []. rewrite app_nil_r. unfold addTrack_settled, setSearchQuery.
      destruct o; simpl; [|done]. by case_match.
  - exists []. rewrite app_nil_r. destruct (isAuthenticated p); [|done].
    unfold setSearchQuery. by case_match.
  - destruct (click_cases i p) as [->|[t ->]];
      [exists []; by rewrite app_nil_r|].
    unfold addTrack. case_bool_decide; [exists []; by rewrite app_nil_r|].
    eexists. split; [done|]. by repeat constructor.
  - destruct (bool_decide _); [|exists []; by rewrite app_nil_r].
    destruct cb; (eexists; split; [done|]);
      (apply Forall_cons_2; [simpl; by auto|constructor]).
  - rewrite tick_requests. eexists. split; [done|].
    case_bool_decide; [done|]. apply timer_post_follow_up.
Qed.

(** X7. The status endpoint is requested once, when the page mounts, and
    never again; whatever else the guest page sends goes to the playlist
    info, now-playing, queue, search and add-track endpoints of the
    endpoint table. *)
Theorem requests_after_status_check (evs : list Event) :
  exists l,
    requests (run mounted evs) = Get endpoints.checkAuth :: l /\
    Forall follow_up l /\
    Get endpoints.checkAuth ∉ l.
Proof.
  assert (forall evs p l0,
            requests p = Get endpoints.checkAuth :: l0 -> Forall follow_up l0 ->
            exists l, requests (run p evs) = Get endpoints.checkAuth :: l /\
                      Forall follow_up l) as Hrun.
  { clear. intros evs. induction evs as [|e evs IH]; intros p l0 Hp Hl0;
      simpl; [by exists l0|].
    destruct (step_requests p e) as (l & Hl & Hfl).
    apply (IH _ (l0 ++ l)); [by rewrite Hl, Hp|by apply Forall_app]. }
  destruct (Hrun evs mounted [] eq_refl (List.Forall_nil _)) as (l & Hl & Hfl).
  exists l. split_and!; [done..|].
  intros Hin. eapply Forall_forall in Hfl; [|exact Hin].
  simpl in Hfl. by destruct Hfl as [?|[?|?]].
Qed.

(** *** The session flag *)

Lemma setIsAuthenticated_frame v p :
  List.filter is_status (awaiting (setIsAuthenticated v p)) =
    List.filter is_status (awaiting p) /\
  toasts (setIsAuthenticated v p) = toasts p.
Proof.
  unfold setIsAuthenticated, queue_effect, nowPlaying_effect,
    playlistInfo_effect, polling_cleanup.
  destruct v, (isAuthenticated p) eqn:Ha; simpl; rewrite ?Ha; simpl;
    rewrite ?List.filter_app; simpl; by rewrite ?app_nil_r.
Qed.

Lemma setIsAuthenticated_polling v p :
  intervals p = polling_intervals (isAuthenticated p) ->
  intervals (setIsAuthenticated v p) = polling_intervals v /\
  isAuthenticated (setIsAuthenticated v p) = v.
Proof.
  unfold setIsAuthenticated, queue_effect, nowPlaying_effect,
    playlistInfo_effect, polling_cleanup.
  intros Hp.
  destruct v, (isAuthenticated p) eqn:Ha; simpl; rewrite ?Ha; simpl;
    rewrite Hp; by simpl.
Qed.

(** Apart from the answer to the status request, no event touches
    [isAuthenticated], the intervals or the awaited status answer. *)
Lemma step_session_frame p e :
  (forall o, e <> Respond (StatusResponse o)) ->
  isAuthenticated (step p e) = isAuthenticated p /\
  intervals (step p e) = intervals p /\
  List.filter is_status (awaiting (step p e)) =
    List.filter is_status (awaiting p).
Proof.
  intros He. destruct e as [r|q|i|cb|t]; simpl.
  - unfold respond.
    destruct (take (answers r) (awaiting p)) as [[k rest]|] eqn:Htake;
      [|done].
    pose proof Htake as (Hk & _)%take_Some.
    assert (is_status k = false) as Hst.
    { destruct r, k; simpl in *; try done. by destruct (He r). }
    rewrite <- (take_filter_other _ is_status _ _ _ Htake Hst).
    destruct r as [o|o|o|o|o|u o]; simpl.
    + by destruct (He o).
    + by destruct o.
    + by destruct o.
    + by destruct o.
    + by destruct o.
    + destruct k; try done. unfold addTrack_settled, setSearchQuery.
      destruct o; simpl; [|done]. by case_match.
  - destruct (isAuthenticated p) eqn:Ha; [|by rewrite Ha].
    unfold setSearchQuery. case_match; simpl; by rewrite Ha.
  - destruct (click_cases i p) as [->|[t ->]]; [done|].
    unfold addTrack. case_bool_decide; [done|]. simpl.
    rewrite List.filter_app. simpl. by rewrite app_nil_r.
  - destruct (bool_decide _); [|done].
    destruct cb; simpl; rewrite List.filter_app; simpl;
      by rewrite app_nil_r.
  - destruct (tick_frame t p) as (_ & H1 & H2 & H3). by rewrite H1, H2, H3.
Qed.

Lemma step_status_answer p o :
  intervals p = polling_intervals (isAuthenticated p) ->
  let q := step p (Respond (StatusResponse o)) in
  intervals q = polling_intervals (isAuthenticated q) /\
  length (List.filter is_status (awaiting q)) =
    Nat.pred (length (List.filter is_status (awaiting p))) /\
  (List.filter is_status (awaiting p) = [] ->
   isAuthenticated q = isAuthenticated p).
Proof.
  intros Hp. simpl. unfold respond.
  destruct (take _ (awaiting p)) as [[k rest]|] eqn:Htake.
  - pose proof (take_filter _ is_status _ _ _ Htake) as Hlen.
    pose proof Htake as (Hk & _)%take_Some.
    destruct k; try done. simpl in Hlen.
    assert (length (List.filter is_status rest) =
            Nat.pred (length (List.filter is_status (awaiting p)))) as Hpred
      by lia.
    destruct o as [v|d]; simpl.
    + destruct (setIsAuthenticated_frame v (set_awaiting rest p)) as [-> _].
      destruct (setIsAuthenticated_polling v (set_awaiting rest p) Hp)
        as [-> ->].
      split_and!; [done|done|]. intros Hnil. rewrite Hnil in Hlen.
      simpl in Hlen. lia.
    + split_and!; [done|done|]. intros Hnil. rewrite Hnil in Hlen.
      simpl in Hlen. lia.
  - apply take_None in Htake.
    assert (List.filter is_status (awaiting p) = []) as Hnil.
    { rewrite <- Htake. clear. induction (awaiting p) as [|k l IH];
        simpl; [done|]. destruct k; simpl; by rewrite ?IH. }
    by rewrite Hnil.
Qed.

Lemma polling_step p e :
  intervals p = polling_intervals (isAuthenticated p) ->
  intervals (step p e) = polling_intervals (isAuthenticated (step p e)).
Proof.
  intros Hp.
  assert ((exists o, e = Respond (StatusResponse o)) \/
          (forall o, e <> Respond (StatusResponse o))) as [[o ->]|He].
  { destruct e as [[o|o|o|o|o|u o]|q|i|cb|t]; try by right.
    left. by exists o. }
  - by destruct (step_status_answer p o Hp).
  - destruct (step_session_frame p e He) as (-> & -> & _). done.
Qed.

(** X8. On every page reached from the mounted page the polling
    intervals are exactly the now-playing interval of 2000 ms and the
    queue interval of 3000 ms when [isAuthenticated] is true, and there
    is none when it is false: no interval is ever registered twice or
    left behind. *)
Theorem polling_iff_authenticated (evs : list Event) :
  intervals (run mounted evs) =
    polling_intervals (isAuthenticated (run mounted evs)).
Proof.
  assert (forall evs p,
            intervals p = polling_intervals (isAuthenticated p) ->
            intervals (run p evs) =
              polling_intervals (isAuthenticated (run p evs))) as Hrun.
  { clear. intros evs. induction evs as [|e evs IH]; intros p Hp; simpl;
      [done|]. by apply IH, polling_step. }
  by apply Hrun.
Qed.

Lemma status_count_step p e :
  (length (List.filter is_status (awaiting (step p e))) <=
   length (List.filter is_status (awaiting p)))%nat.
Proof.
  assert ((exists o, e = Respond (StatusResponse o)) \/
          (forall o, e <> Respond (StatusResponse o))) as [[o ->]|He].
  { destruct e as [[o|o|o|o|o|u o]|q|i|cb|t]; try by right.
    left. by exists o. }
  - simpl. unfold respond.
    destruct (take _ (awaiting p)) as [[k rest]|] eqn:Htake; [|done].
    pose proof (take_filter _ is_status _ _ _ Htake) as Hlen.
    destruct o as [v|d]; simpl.
    + destruct (setIsAuthenticated_frame v (set_awaiting rest p)) as [-> _].
      simpl. lia.
    + lia.
  - destruct (step_session_frame p e He) as (_ & _ & ->). done.
Qed.

Lemma status_count_run evs : forall p,
  (length (List.filter is_status (awaiting (run p evs))) <=
   length (List.filter is_status (awaiting p)))%nat.
Proof.
  induction evs as [|e evs IH]; intros p; simpl; [done|].
  etrans; [apply IH|apply status_count_step].
Qed.

Lemma settled_session_run evs : forall p,
  List.filter is_status (awaiting p) = [] ->
  isAuthenticated (run p evs) = isAuthenticated p.
Proof.
  induction evs as [|e evs IH]; intros p Hp; simpl; [done|].
  assert (List.filter is_status (awaiting (step p e)) = []) as Hp'.
  { apply length_zero_iff_nil. pose proof (status_count_step p e) as Hle.
    rewrite Hp in Hle. simpl in Hle. lia. }
  rewrite (IH _ Hp').
  assert ((exists o, e = Respond (StatusResponse o)) \/
          (forall o, e <> Respond (StatusResponse o))) as [[o ->]|He].
  { destruct e as [[o|o|o|o|o|u o]|q|i|cb|t]; try by right.
    left. by exists o. }
  - simpl. unfold respond.
    destruct (take _ (awaiting p)) as [[k rest]|] eqn:Htake; [|done].
    pose proof (take_filter _ is_status _ _ _ Htake) as Hlen.
    pose proof Htake as (Hk & _)%take_Some.
    destruct k; try done. rewrite Hp in Hlen. simpl in Hlen. lia.
  - by destruct (step_session_frame p e He) as (-> & _).
Qed.

(** X9. The guest page decides [isAuthenticated] once: whatever happens
    after a status answer has been delivered (further status answers
    included) leaves [isAuthenticated] as it was right after that
    delivery.  A session lost or gained later is not noticed. *)
Theorem authentication_decided_once (evs1 evs2 : list Event)
    (o : Outcome bool) :
  isAuthenticated
    (run mounted (evs1 ++ Respond (StatusResponse o) :: evs2)) =
  isAuthenticated (run mounted (evs1 ++ [Respond (StatusResponse o)])).
Proof.
  unfold run. rewrite !foldl_app. simpl.
  fold (run mounted evs1).
  fold (run (step (run mounted evs1) (Respond (StatusResponse o))) evs2).
  apply settled_session_run.
  pose proof (status_count_run evs1 mounted) as Hle. simpl in Hle.
  pose proof (polling_iff_authenticated evs1) as Hpoll.
  destruct (step_status_answer (run mounted evs1) o Hpoll) as (_ & Hlen & _).
  apply length_zero_iff_nil. simpl in Hlen. lia.
Qed.

(** *** Toasts *)


(** *** The debounced search *)

Lemma timer_post_debounce (l : list (Z * TimerCb)) :
  flat_map timer_post l =
    flat_map timer_post (List.filter (fun x => is_debounce x.2) l).
Proof.
  induction l as [|[d [u|q]] l IH]; simpl; [done|done|]. by rewrite IH.
Qed.

Lemma setSearchQuery_debounce q p :
  q <> searchQuery p ->
  debounce_timers (setSearchQuery q p) = [(clock p + 300, DebouncedSearch q)] /\
  searchQuery (setSearchQuery q p) = q /\
  requests (setSearchQuery q p) = requests p /\
  clock (setSearchQuery q p) = clock p /\
  isAuthenticated (setSearchQuery q p) = isAuthenticated p.
Proof.
  intros Hq. unfold setSearchQuery.
  rewrite (proj2 (String.eqb_neq q (searchQuery p))) by done.
  unfold debounce_timers. simpl. rewrite List.filter_app. simpl.
  split_and!; try done.
  assert (List.filter (fun x : Z * TimerCb => is_debounce x.2)
            (List.filter (fun x : Z * TimerCb => negb (is_debounce x.2))
               (timers p)) = []) as ->; [|done].
  induction (timers p) as [|[d [u|s]] l IH]; simpl; done.
Qed.

Lemma tick_debounce t p :
  ~ t < clock p ->
  debounce_timers (tick t p) =
    List.filter (fun x => negb (is_due t x)) (debounce_timers p) /\
  searchQuery (tick t p) = searchQuery p /\
  clock (tick t p) = t /\
  requests (tick t p) =
    requests p ++
    flat_map timer_post (List.filter (is_due t) (debounce_timers p)).
Proof.
  intros Ht. rewrite tick_requests. unfold tick, debounce_timers.
  rewrite !bool_decide_eq_false_2 by done.
  match goal with
  | |- context [foldl ?f ?q ?l] =>
      destruct (fire_timers "" l q) as (Htm & Hc & _ & _)
  end.
  rewrite Htm, Hc. simpl. split_and!; try done.
  - apply filter_filter_comm.
  - rewrite (fold_frame searchQuery); [done|].
    intros [u|s] q; simpl; [done|].
    destruct (String.eqb s ""); [done|]. unfold handleSearch.
    by destruct (is_blank s).
  - by rewrite timer_post_debounce, filter_filter_comm.
Qed.

(** X11. Only the last query of a burst of typing is searched for: on an
    authenticated page, when a query is typed, the clock moves by less
    than 300 ms, and another query is typed, then by the time 300 ms have
    passed since the second keystroke the page has sent one search
    request for the second query, or none if that query is blank, and
    nothing for the first. *)
Theorem debounce_sends_last_query (p : Page) (q1 q2 : string) (t1 t : Z) :
  isAuthenticated p = true ->
  q1 <> searchQuery p ->
  q2 <> q1 ->
  t1 < clock p + 300 ->
  Z.max (clock p) t1 + 300 <= t ->
  requests (run p [Typed q1; Tick t1; Typed q2; Tick t]) =
    requests p ++ search_post q2.
Proof.
  intros Hauth Hq1 Hq2 Ht1 Ht. simpl. rewrite Hauth.
  destruct (setSearchQuery_debounce q1 p Hq1)
    as (Hd1 & Hs1 & Hr1 & Hc1 & Ha1).
  set (p1 := setSearchQuery q1 p) in *.
  assert (debounce_timers (tick t1 p1) = [(clock p + 300, DebouncedSearch q1)]
          /\ searchQuery (tick t1 p1) = q1
          /\ clock (tick t1 p1) = Z.max (clock p) t1
          /\ requests (tick t1 p1) = requests p
          /\ isAuthenticated (tick t1 p1) = true) as (Hd2 & Hs2 & Hc2 & Hr2 & Ha2).
  { destruct (tick_frame t1 p1) as (_ & _ & Ha & _).
    destruct (decide (t1 < clock p1)) as [Hlt|Hge].
    - unfold tick. rewrite bool_decide_eq_true_2 by done.
      split_and!; try done; [lia|congruence].
    - destruct (tick_debounce t1 p1 Hge) as (Hd & Hs & Hc & Hr).
      assert (is_due t1 (clock p + 300, DebouncedSearch q1) = false) as Hdue
        by (apply bool_decide_eq_false; simpl; lia).
      rewrite Hd, Hs, Hc, Hr, Hd1. simpl. rewrite Hdue. simpl.
      rewrite app_nil_r. split_and!; try done; [lia|congruence]. }
  set (p2 := tick t1 p1) in *. rewrite Ha2.
  assert (q2 <> searchQuery p2) as Hq2' by congruence.
  destruct (setSearchQuery_debounce q2 p2 Hq2')
    as (Hd3 & Hs3 & Hr3 & Hc3 & Ha3).
  set (p3 := setSearchQuery q2 p2) in *.
  destruct (tick_debounce t p3) as (_ & _ & _ & Hr4); [lia|].
  assert (is_due t (clock p2 + 300, DebouncedSearch q2) = true) as Hdue
    by (apply bool_decide_eq_true; simpl; lia).
  rewrite Hr4, Hd3, Hr3, Hr2. simpl. rewrite Hdue. simpl.
  by rewrite app_nil_r.
Qed.

Lemma debounce_sends_last_query_witness :
  let p := run mounted [Respond (StatusResponse (Resolved true))] in
  requests (run p [Typed "ab"; Tick 200; Typed "abba"; Tick 500]) =
    requests p ++ [PostQuery endpoints.search "abba"].
Proof.
  intros p.
  apply (debounce_sends_last_query p "ab" "abba" 200 500);
    vm_compute; (reflexivity || discriminate).
Defined.

Lemma debounce_count_step p e :
  (length (debounce_timers p) <= 1)%nat ->
  (length (debounce_timers (step p e)) <= 1)%nat.
Proof.
  intros Hp.
  assert (forall q s, (length (debounce_timers s) <= 1)%nat ->
            (length (debounce_timers (setSearchQuery q s)) <= 1)%nat) as Hset.
  { intros q s Hs. destruct (decide (q = searchQuery s)) as [->|Hne].
    - unfold setSearchQuery. by rewrite String.eqb_refl.
    - by destruct (setSearchQuery_debounce q s Hne) as (-> & _). }
  destruct e as [r|q|i|cb|t]; simpl.
  - unfold respond.
    destruct (take (answers r) (awaiting p)) as [[k rest]|]; [|done].
    destruct r as [o|o|o|o|o|u o]; simpl.
    + destruct o as [v|d]; simpl; [|done].
      unfold setIsAuthenticated, queue_effect, nowPlaying_effect,
        playlistInfo_effect, polling_cleanup.
      destruct v, (isAuthenticated p) eqn:Ha; simpl; rewrite ?Ha; by simpl.
    + by destruct o.
    + by destruct o.
    + by destruct o.
    + by destruct o.
    + destruct k; try done. unfold addTrack_settled, debounce_timers.
      simpl. rewrite List.filter_app. simpl. rewrite app_nil_r.
      destruct o as [pos|d]; simpl; [|done].
      apply (Hset "" (set_successData _ (set_awaiting rest p))). done.
  - destruct (isAuthenticated p); [|done]. by apply Hset.
  - destruct (click_cases i p) as [->|[t ->]]; [done|].
    unfold addTrack. by case_bool_decide.
  - destruct (bool_decide _); [|done]. by destruct cb.
  - destruct (decide (t < clock p)) as [Hlt|Hge].
    { unfold tick. by rewrite bool_decide_eq_true_2. }
    destruct (tick_debounce t p Hge) as (-> & _).
    etrans; [|exact Hp]. clear.
    induction (debounce_timers p) as [|x l IH]; simpl; [done|].
    destruct (is_due t x); simpl; lia.
Qed.

Lemma fire_results (l : list (Z * TimerCb)) : forall p,
  searchResults (foldl (fun q x => run_timer x.2 q) p l) =
    if existsb timer_clears l then [] else searchResults p.
Proof.
  induction l as [|[d [u|s]] l IH]; intros p; simpl; [done|..].
  - by rewrite IH.
  - rewrite IH. unfold timer_clears, clears_results, handleSearch. simpl.
    destruct (String.eqb s ""); simpl; [done|].
    destruct (is_blank s); simpl; [|done]. by destruct (existsb _ l).
Qed.

Lemma existsb_debounce (l : list (Z * TimerCb)) :
  existsb timer_clears l =
    existsb timer_clears (List.filter (fun x => is_debounce x.2) l).
Proof.
  induction l as [|[d [u|q]] l IH]; simpl; [done|done|]. by rewrite IH.
Qed.

(** X12. What the result list shows after the query changed and the
    debounce delay passed: a query that is blank but not empty empties
    the list; the empty query leaves the previous results on display,
    as does any other query until its answer arrives.  The page has by
    then sent the search for the query, or nothing if it is blank. *)
Theorem results_after_query_change (p : Page) (q : string) (t : Z) :
  isAuthenticated p = true ->
  q <> searchQuery p ->
  clock p + 300 <= t ->
  searchResults (run p [Typed q; Tick t]) =
    (if clears_results q then [] else searchResults p) /\
  requests (run p [Typed q; Tick t]) = requests p ++ search_post q.
Proof.
  intros Hauth Hq Ht. simpl. rewrite Hauth.
  destruct (setSearchQuery_debounce q p Hq) as (Hd & _ & Hr & Hc & _).
  assert (searchResults (setSearchQuery q p) = searchResults p) as Hres.
  { unfold setSearchQuery. by case_match. }
  set (p1 := setSearchQuery q p) in *.
  assert (is_due t (clock p + 300, DebouncedSearch q) = true) as Hdue
    by (apply bool_decide_eq_true; simpl; lia).
  split.
  - unfold tick. rewrite bool_decide_eq_false_2 by lia.
    rewrite fire_results. simpl.
    rewrite existsb_debounce, filter_filter_comm.
    fold (debounce_timers p1). rewrite Hd. simpl. rewrite Hdue. simpl.
    unfold timer_clears. simpl. by rewrite orb_false_r, Hres.
  - destruct (tick_debounce t p1) as (_ & _ & _ & Hr4); [lia|].
    rewrite Hr4, Hd, Hr. simpl. rewrite Hdue. simpl. by rewrite app_nil_r.
Qed.

Lemma results_after_query_change_witness :
  let p := run mounted (Samples.searching_and_adding ++
                        [Respond (AddTrackResponse "spotify:track:A"
                                    (Failed None));
                         Typed "x"]) in
  searchResults (run p [Typed ""; Tick 5000]) = searchResults p /\
  searchResults p <> [].
Proof.
  intros p.
  destruct (results_after_query_change p "" 5000) as [H _].
  - vm_compute. reflexivity.
  - vm_compute. discriminate.
  - vm_compute. discriminate.
  - assert (clears_results "" = false) as Hkeep by reflexivity.
    rewrite Hkeep in H. split; [exact H|]. vm_compute. discriminate.
Defined.

(** X13. While a uri is held in [addingRef] after its submission settled,
    a click on the Add button of any search result with that uri changes
    nothing at all: no request, no toast, no spinner. *)
Theorem click_dropped_while_held (evs0 evs : list Event) (t : TrackRef)
    (o : Outcome (option Z)) (i : nat) (r : SearchTrack) :
  let p := run mounted evs0 in
  let settled := step p (Respond (AddTrackResponse (uri t) o)) in
  AwAddTrack t ∈ awaiting p ->
  Forall (before (clock p + 2000)) evs ->
  searchResults (run settled evs) !! i = Some r ->
  uri (s_track r) = uri t ->
  step (run settled evs) (Clicked i) = run settled evs.
Proof.
  intros p settled Ht Hevs Hr Hu.
  assert (held_until (uri t) (clock p + 2000) settled) as Hheld.
  { apply settle_holds; [|done].
    apply guard_consistent_run, guard_consistent_mounted. }
  destruct (held_until_run _ _ evs _ Hheld Hevs) as (Hin & _).
  simpl. unfold click. destruct (isAuthenticated _); [|done].
  rewrite Hr. destruct (row_disabled _); [done|].
  apply addTrack_guarded. by rewrite Hu.
Qed.

Lemma click_dropped_while_held_witness :
  let p := run mounted Samples.searching_and_adding in
  let settled :=
    step p (Respond (AddTrackResponse (uri Samples.trackA) (Failed None))) in
  step (run settled [Tick 1000]) (Clicked 0) = run settled [Tick 1000] /\
  row_disabled
    (render_row (addingTrack (run settled [Tick 1000]))
       (mkSearchTrack Samples.trackA false false 0)) = false.
Proof.
  intros p settled. split; [|vm_compute; reflexivity].
  apply (click_dropped_while_held Samples.searching_and_adding [Tick 1000]
           Samples.trackA (Failed None) 0%nat
           (mkSearchTrack Samples.trackA false false 0)).
  - vm_compute. repeat constructor.
  - repeat constructor; vm_compute; reflexivity.
  - vm_compute. reflexivity.
  - vm_compute. reflexivity.
Defined.

(** X14. At most one debounce timer is pending on any page reached from
    the mounted page: a change of the query clears the timer of the
    previous query before it sets its own. *)
Theorem one_debounce_timer (evs : list Event) :
  (length (debounce_timers (run mounted evs)) <= 1)%nat.
Proof.
  assert (forall evs p, (length (debounce_timers p) <= 1)%nat ->
            (length (debounce_timers (run p evs)) <= 1)%nat) as Hrun.
  { clear. intros evs. induction evs as [|e evs IH]; intros p Hp; simpl;
      [done|]. by apply IH, debounce_count_step. }
  by apply Hrun.
Qed.

End GuestPageMoreFacts.
